(** * Leaky integrate-and-fire modules ([myelin/torch/module/lif.py])

    A shallow embedding of the four modules [LIFCell], [LIFLayer],
    [LIFFeedForwardCell] and [LIFConstantCurrentEncoder], of the tensor
    operations they call, and of the step functions of
    [myelin/torch/functional/lif.py] they delegate to.

    Tensors are dense row-major arrays: a shape, a device, a dtype tag and
    the flat list of entries.  Entries live in an arbitrary scalar type
    with the arithmetic the modules use: the binary64 numbers, with
    their rounding, infinities and not-a-number, are one instance, the
    rationals and the reals are others.  What the reset needs of the
    arithmetic is stated as laws that hold in all three.  Python
    exceptions are modelled by [Raise],
    and a method of a module is a computation over the module object, so
    that a write to [self] would be visible in its result. *)

From Stdlib Require Import String.
From Stdlib Require Import List Arith PeanoNat Lia Bool.
From Stdlib Require Import Ring_theory QArith Qcanon Reals.
From Stdlib Require PrimFloat FloatAxioms SpecFloat FloatOps.
Import ListNotations.

#[local] Close Scope R_scope.
#[local] Close Scope Qc_scope.
#[local] Close Scope Q_scope.
#[local] Open Scope nat_scope.
#[local] Open Scope list_scope.

(* ================================================================== *)
(** ** Scalars *)

(** The element-wise arithmetic supplied by the tensor engine. *)
Class Scalar (F : Type) : Type := {
  fzero : F;
  fone : F;
  fadd : F -> F -> F;
  fsub : F -> F -> F;
  fmul : F -> F -> F;
  fopp : F -> F;
  fleb : F -> F -> bool
}.

(** Scalars whose arithmetic is exact: the operations form a ring. *)
Class ExactScalar (F : Type) {SF : Scalar F} : Prop := {
  scalar_ring : ring_theory fzero fone fadd fmul fsub fopp (@eq F)
}.

(** Division, square root and the injection of sizes, used by the weight
    initialisation only. *)
Class RootScalar (F : Type) : Type := {
  fdiv : F -> F -> F;
  fsqrt : F -> F;
  fof_nat : nat -> F
}.

#[export] Instance Qc_Scalar : Scalar Qc := {
  fzero := 0%Qc;
  fone := 1%Qc;
  fadd := Qcplus;
  fsub := Qcminus;
  fmul := Qcmult;
  fopp := Qcopp;
  fleb := fun a b => Qle_bool a b
}.

#[export] Instance Qc_ExactScalar : ExactScalar Qc.
Proof. constructor. exact Qcrt. Qed.

#[export] Instance R_Scalar : Scalar R := {
  fzero := 0%R;
  fone := 1%R;
  fadd := Rplus;
  fsub := Rminus;
  fmul := Rmult;
  fopp := Ropp;
  fleb := fun a b => if Rle_dec a b then true else false
}.

#[export] Instance R_ExactScalar : ExactScalar R.
Proof. constructor. exact RTheory. Qed.

#[export] Instance R_RootScalar : RootScalar R := {
  fdiv := Rdiv;
  fsqrt := sqrt;
  fof_nat := INR
}.

(** IEEE binary64 numbers, the scalars of a [float64] tensor. *)
#[export] Instance float_Scalar : Scalar PrimFloat.float := {
  fzero := PrimFloat.zero;
  fone := PrimFloat.one;
  fadd := PrimFloat.add;
  fsub := PrimFloat.sub;
  fmul := PrimFloat.mul;
  fopp := PrimFloat.opp;
  fleb := PrimFloat.leb
}.

(** The scalars that are neither infinite nor not-a-number, the
    not-a-number scalars, and the zero with a negative sign. *)
Class Finiteness (F : Type) : Type := {
  finite : F -> Prop;
  not_a_number : F -> Prop;
  negative_zero : F -> Prop
}.

(** What the reset [(1 - z) * v + z * v_reset] comes to for [z = 1] and
    for [z = 0] in the engine's arithmetic. *)
Class ResetLaws (F : Type) {SF : Scalar F} {FN : Finiteness F} : Prop := {
  finite_or_not : forall v : F, finite v \/ ~ finite v;
  reset_of_spike :
    forall v r : F,
      finite v -> ~ negative_zero r ->
      fadd (fmul (fsub fone fone) v) (fmul fone r) = r;
  reset_of_overflow :
    forall v r : F,
      ~ finite v ->
      not_a_number (fadd (fmul (fsub fone fone) v) (fmul fone r));
  reset_of_silence :
    forall v r : F,
      finite r -> ~ negative_zero v ->
      fadd (fmul (fsub fone fzero) v) (fmul fzero r) = v
}.

Definition sf_finite (s : SpecFloat.spec_float) : bool :=
  match s with
  | SpecFloat.S754_zero _ | SpecFloat.S754_finite _ _ _ => true
  | _ => false
  end.

#[export] Instance float_Finiteness : Finiteness PrimFloat.float := {
  finite := fun x => sf_finite (FloatOps.Prim2SF x) = true;
  not_a_number := fun x => FloatOps.Prim2SF x = SpecFloat.S754_nan;
  negative_zero := fun x => FloatOps.Prim2SF x = SpecFloat.S754_zero true
}.

(** In exact arithmetic every scalar is finite and zero has no sign. *)
Definition exact_Finiteness (F : Type) : Finiteness F := {|
  finite := fun _ => True;
  not_a_number := fun _ => False;
  negative_zero := fun _ => False
|}.

#[export] Instance Qc_Finiteness : Finiteness Qc := exact_Finiteness Qc.

#[export] Instance R_Finiteness : Finiteness R := exact_Finiteness R.

(** The number 1 as a binary64 number: mantissa [2^52], exponent [-52]. *)
Definition one_sf : SpecFloat.spec_float :=
  SpecFloat.S754_finite false 4503599627370496 (-52).

(* ================================================================== *)
(** ** Exceptions and computations over the module object *)

Inductive exn : Type :=
| IndexError
| RuntimeError
| TypeError.

Inductive result (A : Type) : Type :=
| Ok (a : A)
| Raise (e : exn).

Arguments Ok {A} a.
Arguments Raise {A} e.

Definition rbind {A B : Type} (r : result A) (k : A -> result B) : result B :=
  match r with
  | Ok a => k a
  | Raise e => Raise e
  end.

(** A method body: it reads and may write the object [S] it runs on, and
    either returns or raises.  The object survives an exception. *)
Definition M (S A : Type) : Type := S -> result A * S.

Definition ret {S A : Type} (a : A) : M S A := fun s => (Ok a, s).

Definition bind {S A B : Type} (m : M S A) (k : A -> M S B) : M S B :=
  fun s =>
    match m s with
    | (Ok a, s') => k a s'
    | (Raise e, s') => (Raise e, s')
    end.

(** Reading an attribute of [self]. *)
Definition attr {S A : Type} (f : S -> A) : M S A := fun s => (Ok (f s), s).

(** A call into the tensor engine: it does not touch [self]. *)
Definition engine {S A : Type} (r : result A) : M S A := fun s => (r, s).

Declare Scope py_scope.
Delimit Scope py_scope with py.

Notation "x <- m ;; k" := (bind m (fun x => k))
  (at level 61, m at next level, right associativity) : py_scope.
Notation "' pat <- m ;; k" := (bind m (fun x => match x with pat => k end))
  (at level 61, pat pattern, m at next level, right associativity) : py_scope.

Notation "x <~ r ;; k" := (rbind r (fun x => k))
  (at level 61, r at next level, right associativity) : py_scope.

Notation "' pat <~ r ;; k" := (rbind r (fun x => match x with pat => k end))
  (at level 61, pat pattern, r at next level, right associativity) : py_scope.

Open Scope py_scope.

(** [for i in idx: acc = body i acc], leaving at the first exception. *)
Fixpoint for_in {S A : Type} (idx : list nat) (body : nat -> A -> M S A)
  (acc : A) : M S A :=
  match idx with
  | [] => ret acc
  | i :: rest => a <- body i acc ;; for_in rest body a
  end.

(** [for i in range(n)]. *)
Definition for_range {S A : Type} (n : nat) (body : nat -> A -> M S A)
  (acc : A) : M S A :=
  for_in (seq 0 n) body acc.

(* ================================================================== *)
(** ** The tensor engine *)

Definition torch_device : Type := string.

Inductive dtype : Type :=
| float16
| float32
| float64.

(** [torch.float] and the default dtype of [torch.zeros]. *)
Definition torch_float : dtype := float32.

Definition dtype_rank (d : dtype) : nat :=
  match d with
  | float16 => 0
  | float32 => 1
  | float64 => 2
  end.

(** Type promotion of two floating dtypes: the wider one. *)
Definition promote (a b : dtype) : dtype :=
  if dtype_rank a <=? dtype_rank b then b else a.

Definition dtype_eqb (a b : dtype) : bool := dtype_rank a =? dtype_rank b.

Definition numel (shape : list nat) : nat := fold_right Nat.mul 1 shape.

Definition shape_eqb (a b : list nat) : bool :=
  if list_eq_dec Nat.eq_dec a b then true else false.

(** [chunks k n l]: the first [n] consecutive blocks of [k] entries of [l]. *)
Fixpoint chunks {A : Type} (k n : nat) (l : list A) : list (list A) :=
  match n with
  | 0 => []
  | S n' => firstn k l :: chunks k n' (skipn k l)
  end.

(** Broadcasting of two shapes, read from the last dimension: two
    dimensions go together when they are equal or one of them is 1, and a
    missing dimension counts as 1. *)
Fixpoint broadcast_rev (a b : list nat) : option (list nat) :=
  match a, b with
  | [], _ => Some b
  | _, [] => Some a
  | x :: a', y :: b' =>
      match broadcast_rev a' b' with
      | None => None
      | Some s =>
          if x =? y then Some (x :: s)
          else if x =? 1 then Some (y :: s)
          else if y =? 1 then Some (x :: s)
          else None
      end
  end.

Definition broadcast_shapes (a b : list nat) : option (list nat) :=
  option_map (@rev nat) (broadcast_rev (rev a) (rev b)).

(** A shape with dimensions of length 1 put in front, up to the number
    of dimensions of [to]. *)
Definition pad_shape (from to : list nat) : list nat :=
  repeat 1 (length to - length from) ++ from.

(** The entries of a tensor of shape [from] read as a tensor of shape
    [to], where every dimension of [from] is that of [to] or is 1: the
    slice of a dimension of length 1 is repeated. *)
Fixpoint expand {A : Type} (from to : list nat) (data : list A) : list A :=
  match from, to with
  | d :: from', e :: to' =>
      if d =? e
      then concat (map (expand from' to') (chunks (fold_right Nat.mul 1 from') d data))
      else concat (repeat (expand from' to' data) e)
  | _, _ => data
  end.

Section Engine.

Context {F : Type} {SF : Scalar F}.

Record tensor : Type := mkTensor {
  t_shape : list nat;
  t_device : torch_device;
  t_dtype : dtype;
  t_data : list F
}.

(** The entries fill the shape. *)
Definition wf (t : tensor) : Prop := length (t_data t) = numel (t_shape t).

(** [torch.zeros] of the unpacked [shape], on [dev] and with dtype [dt]. *)
Definition zeros (shape : list nat) (dev : torch_device) (dt : dtype)
  : tensor :=
  mkTensor shape dev dt (repeat fzero (numel shape)).

(** [torch.zeros] with its sizes unpacked from a sequence, as in
    [zeros( *x.shape, device=...)]: with no size at all the call has no
    matching signature. *)
Definition zeros_unpacked (sizes : list nat) (dev : torch_device)
  (dt : dtype) : result tensor :=
  match sizes with
  | [] => Raise TypeError
  | _ :: _ => Ok (zeros sizes dev dt)
  end.

(** [t.unbind(0)]: the slices along the first dimension. *)
Definition unbind0 (t : tensor) : result (list tensor) :=
  match t_shape t with
  | [] => Raise IndexError
  | n :: rest =>
      Ok (map (mkTensor rest (t_device t) (t_dtype t))
              (chunks (numel rest) n (t_data t)))
  end.

(** [t[i]] for a tensor, a view of the [i]-th slice. *)
Definition select0 (t : tensor) (i : nat) : result tensor :=
  match t_shape t with
  | [] => Raise IndexError
  | n :: rest =>
      if i <? n
      then Ok (mkTensor rest (t_device t) (t_dtype t)
                 (firstn (numel rest) (skipn (i * numel rest) (t_data t))))
      else Raise IndexError
  end.

(** [xs[i]] for a Python sequence. *)
Definition getitem {A : Type} (xs : list A) (i : nat) : result A :=
  match nth_error xs i with
  | Some x => Ok x
  | None => Raise IndexError
  end.

Definition same_layout (a b : tensor) : bool :=
  shape_eqb (t_shape a) (t_shape b) && String.eqb (t_device a) (t_device b).

(** [torch.stack(ts)]: a new leading dimension; the list must be non-empty
    and its tensors of one shape, on one device. *)
Definition stack (ts : list tensor) : result tensor :=
  match ts with
  | [] => Raise RuntimeError
  | t :: rest =>
      if forallb (same_layout t) rest
      then Ok (mkTensor (length ts :: t_shape t) (t_device t)
                 (fold_left promote (map t_dtype rest) (t_dtype t))
                 (concat (map t_data ts)))
      else Raise RuntimeError
  end.

(** [buf[ts, :, :] = v]: three indices, so [buf] needs at least three
    dimensions; the slice [buf[ts]] is overwritten with the entries of [v],
    which must have the shape of the slice (no broadcasting from a
    different shape in this model).  [buf] keeps its device and dtype. *)
Definition setitem3 (buf : tensor) (ts : nat) (v : tensor) : result tensor :=
  match t_shape buf with
  | n :: ((_ :: _ :: _) as rest) =>
      if ts <? n then
        if shape_eqb (t_shape v) rest then
          Ok (mkTensor (t_shape buf) (t_device buf) (t_dtype buf)
                (firstn (ts * numel rest) (t_data buf)
                 ++ t_data v
                 ++ skipn ((ts + 1) * numel rest) (t_data buf)))
        else Raise RuntimeError
      else Raise IndexError
  | _ => Raise IndexError
  end.

(** An element-wise operation with a Python scalar. *)
Definition tmap (f : F -> F) (t : tensor) : tensor :=
  mkTensor (t_shape t) (t_device t) (t_dtype t) (map f (t_data t)).

Fixpoint zip_with (f : F -> F -> F) (l1 l2 : list F) : list F :=
  match l1, l2 with
  | x :: l1', y :: l2' => f x y :: zip_with f l1' l2'
  | _, _ => []
  end.

(** A CPU tensor of no dimension, which element-wise operations take
    together with a tensor on any device. *)
Definition is_cpu_scalar (t : tensor) : bool :=
  match t_shape t with
  | [] => String.eqb (t_device t) "cpu"
  | _ :: _ => false
  end.

(** The device of the result of an element-wise operation, when the
    operands go together. *)
Definition result_device (a b : tensor) : option torch_device :=
  if String.eqb (t_device a) (t_device b) then Some (t_device a)
  else if is_cpu_scalar a then Some (t_device b)
  else if is_cpu_scalar b then Some (t_device a)
  else None.

(** The dtype of the result: among floating dtypes, a tensor of no
    dimension does not raise the dtype of one with dimensions; otherwise
    the wider dtype wins. *)
Definition result_dtype (a b : tensor) : dtype :=
  match t_shape a, t_shape b with
  | [], _ :: _ => t_dtype b
  | _ :: _, [] => t_dtype a
  | _, _ => promote (t_dtype a) (t_dtype b)
  end.

(** An element-wise operation on two tensors.  Operands of one shape on
    one device are combined entry by entry.  Otherwise the operands are
    broadcast to their common shape first; shapes that do not broadcast
    raise, and so do operands on two devices unless one of them is a CPU
    tensor of no dimension. *)
Definition tzip (f : F -> F -> F) (a b : tensor) : result tensor :=
  if String.eqb (t_device a) (t_device b)
     && shape_eqb (t_shape a) (t_shape b) then
    Ok (mkTensor (t_shape a) (t_device a) (promote (t_dtype a) (t_dtype b))
          (zip_with f (t_data a) (t_data b)))
  else
    match result_device a b, broadcast_shapes (t_shape a) (t_shape b) with
    | Some dev, Some s =>
        Ok (mkTensor s dev (result_dtype a b)
              (zip_with f
                 (expand (pad_shape (t_shape a) s) s (t_data a))
                 (expand (pad_shape (t_shape b) s) s (t_data b))))
    | _, _ => Raise RuntimeError
    end.

Definition tadd : tensor -> tensor -> result tensor := tzip fadd.
Definition tmul : tensor -> tensor -> result tensor := tzip fmul.

(** [c * t], [c - t], [t - c] and [-t] for a scalar [c]. *)
Definition smul (c : F) : tensor -> tensor := tmap (fmul c).
Definition rsub (c : F) : tensor -> tensor := tmap (fun x => fsub c x).
Definition subs (t : tensor) (c : F) : tensor := tmap (fun x => fsub x c) t.
Definition muls (t : tensor) (c : F) : tensor := tmap (fun x => fmul x c) t.
Definition tneg : tensor -> tensor := tmap fopp.

(** The threshold: 1 where the entry is at least 0, else 0. *)
Definition heaviside_scalar (x : F) : F := if fleb fzero x then fone else fzero.
Definition heaviside : tensor -> tensor := tmap heaviside_scalar.

Definition dot (r w : list F) : F := fold_right fadd fzero (zip_with fmul r w).

(** [torch.nn.functional.linear(x, w)], that is [x @ w^T]: [x] of shape
    [*, n], [w] of shape [h, n], the result of shape [*, h]; the two must
    live on one device and, unlike the element-wise operations, have one
    dtype. *)
Definition linear (x w : tensor) : result tensor :=
  match t_shape w, rev (t_shape x) with
  | [h; n], n' :: lead =>
      if (n =? n') && String.eqb (t_device x) (t_device w)
         && dtype_eqb (t_dtype x) (t_dtype w) then
        Ok (mkTensor (rev (h :: lead)) (t_device x) (t_dtype x)
              (flat_map (fun r => map (dot r) (chunks n h (t_data w)))
                        (chunks n (numel (rev lead)) (t_data x))))
      else Raise RuntimeError
  | _, _ => Raise RuntimeError
  end.

End Engine.

Arguments tensor F : clear implicits.
Arguments mkTensor {F} t_shape t_device t_dtype t_data.

(* ================================================================== *)
(** ** The step functions ([myelin/torch/functional/lif.py]) *)

Module LIFParameters.
Section Def.
Context {F : Type}.

Record t : Type := mk {
  tau_syn_inv : F;
  tau_mem_inv : F;
  v_leak : F;
  v_th : F;
  v_reset : F
}.

End Def.
Arguments t F : clear implicits.
End LIFParameters.

Module LIFState.
Section Def.
Context {F : Type}.

Record t : Type := mk {
  z : tensor F;
  v : tensor F;
  i : tensor F
}.

End Def.
Arguments t F : clear implicits.
End LIFState.

Module LIFFeedForwardState.
Section Def.
Context {F : Type}.

Record t : Type := mk {
  v : tensor F;
  i : tensor F
}.

End Def.
Arguments t F : clear implicits.
End LIFFeedForwardState.

Section Functional.

Context {F : Type} {SF : Scalar F}.

Import LIFParameters.

(** Modelled from the spec: step 2 of the LIF step of
    [functional/lif.py], which is not among the sources:
    [i_new = i + dt * tau_syn_inv * (-i + input_current)]. *)
Definition lif_current_update (i input_current : tensor F)
  (p : LIFParameters.t F) (dt : F) : result (tensor F) :=
  d <~ tadd (tneg i) input_current ;;
  tadd i (smul (fmul dt (tau_syn_inv p)) d).

(** Modelled from the spec: step 3 of the LIF step of
    [functional/lif.py], which is not among the sources:
    [v_new = v + dt * tau_mem_inv * ((v_leak - v) + i_new)]; this is the
    potential before the reset. *)
Definition lif_potential_update (v i_new : tensor F)
  (p : LIFParameters.t F) (dt : F) : result (tensor F) :=
  d <~ tadd (rsub (v_leak p) v) i_new ;;
  tadd v (smul (fmul dt (tau_mem_inv p)) d).

(** Modelled from the spec: step 4 of the LIF step of
    [functional/lif.py], which is not among the sources:
    [z_new = heaviside(v_new - v_th)]. *)
Definition lif_spike (v_new : tensor F) (p : LIFParameters.t F) : tensor F :=
  heaviside (subs v_new (v_th p)).

(** Modelled from the spec: step 5 of the LIF step of
    [functional/lif.py], which is not among the sources:
    [v_new = (1 - z_new) * v_new + z_new * v_reset]. *)
Definition lif_reset (z_new v_new : tensor F) (p : LIFParameters.t F)
  : result (tensor F) :=
  keep <~ tmul (rsub fone z_new) v_new ;;
  tadd keep (muls z_new (v_reset p)).

(** Modelled from the spec: steps 1 to 3 of [lif_step], the synaptic
    current and the potential computed before the threshold is applied. *)
Definition lif_step_integrate (input : tensor F) (state : LIFState.t F)
  (input_weights recurrent_weights : tensor F) (p : LIFParameters.t F)
  (dt : F) : result (tensor F * tensor F) :=
  from_input <~ linear input input_weights ;;
  from_spikes <~ linear (LIFState.z state) recurrent_weights ;;
  input_current <~ tadd from_input from_spikes ;;
  i_new <~ lif_current_update (LIFState.i state) input_current p dt ;;
  v_new <~ lif_potential_update (LIFState.v state) i_new p dt ;;
  Ok (v_new, i_new).

(** Modelled from the spec: [lif_step] of [functional/lif.py], which is
    not among the sources (spec 4.1).  It returns the spikes and the
    carried state [(z_new, v_new, i_new)]. *)
Definition lif_step (input : tensor F) (state : LIFState.t F)
  (input_weights recurrent_weights : tensor F) (p : LIFParameters.t F)
  (dt : F) : result (tensor F * LIFState.t F) :=
  '(v_new, i_new) <~ lif_step_integrate input state input_weights
                       recurrent_weights p dt ;;
  let z_new := lif_spike v_new p in
  v_new <~ lif_reset z_new v_new p ;;
  Ok (z_new, LIFState.mk z_new v_new i_new).

(** Modelled from the spec: [lif_feed_forward_step] of
    [functional/lif.py], which is not among the sources (spec 4.2): steps
    2 to 5 of [lif_step] with the input current supplied directly. *)
Definition lif_feed_forward_step (input : tensor F)
  (state : LIFFeedForwardState.t F) (p : LIFParameters.t F) (dt : F)
  : result (tensor F * LIFFeedForwardState.t F) :=
  i_new <~ lif_current_update (LIFFeedForwardState.i state) input p dt ;;
  v_new <~ lif_potential_update (LIFFeedForwardState.v state) i_new p dt ;;
  let z_new := lif_spike v_new p in
  v_new <~ lif_reset z_new v_new p ;;
  Ok (z_new, LIFFeedForwardState.mk v_new i_new).

(** Modelled from the spec: [lif_current_encoder] of [functional/lif.py],
    which is not among the sources (spec 4.3):
    [v_new = v + dt * tau_mem_inv * ((v_leak - v) + input_current)], then
    the threshold and the reset of [lif_step]; it returns [(z, v)]. *)
Definition lif_current_encoder (input_current v : tensor F)
  (p : LIFParameters.t F) (dt : F) : result (tensor F * tensor F) :=
  v_new <~ lif_potential_update v input_current p dt ;;
  let z_new := lif_spike v_new p in
  v_new <~ lif_reset z_new v_new p ;;
  Ok (z_new, v_new).

End Functional.

(* ================================================================== *)
(** ** Parameters and the random generator of the framework *)

Module NNParameter.
Section Def.
Context {F : Type}.

(** [torch.nn.Parameter]: a tensor registered as trainable. *)
Record t : Type := mk {
  data : tensor F;
  requires_grad : bool
}.

(** [torch.nn.Parameter(x)]. *)
Definition new (x : tensor F) : t := mk x true.

End Def.
Arguments t F : clear implicits.
End NNParameter.

Module Generator.
Section Def.
Context {F : Type}.

(** The default generator: the sequence of standard-normal samples fixed
    by the seed, and how many of them have been consumed. *)
Record t : Type := mk {
  samples : nat -> F;
  consumed : nat
}.

(** [torch.randn] of the unpacked [shape]: the next [numel shape] samples,
    on the CPU with the default dtype. *)
Definition randn (shape : list nat) (g : t) : tensor F * t :=
  (mkTensor shape "cpu"%string torch_float
     (map (samples g) (seq (consumed g) (numel shape))),
   mk (samples g) (consumed g + numel shape)).

End Def.
Arguments t F : clear implicits.
End Generator.

(** [x / c] for a scalar [c]. *)
Definition divs {F : Type} {RF : RootScalar F} (x : tensor F) (c : F)
  : tensor F :=
  mkTensor (t_shape x) (t_device x) (t_dtype x)
    (map (fun a => fdiv a c) (t_data x)).

(** [np.sqrt(n)] for an integer [n]. *)
Definition np_sqrt {F : Type} {RF : RootScalar F} (n : nat) : F :=
  fsqrt (fof_nat n).

(** What a [torch.nn.Module] that is called on an input and a state
    does: [module(input, state)] runs its [forward]. *)
Class Callable (F C St : Type) : Type := {
  call : tensor F -> St -> M C (tensor F * St)
}.

(* ================================================================== *)
(** ** [LIFCell] *)

Module LIFCell.
Section Def.
Context {F : Type} {SF : Scalar F}.

Record t : Type := mk {
  input_weights : NNParameter.t F;
  recurrent_weights : NNParameter.t F;
  hidden_size : nat;
  p : LIFParameters.t F;
  dt : F
}.

(** The constructor; the defaults of [p] and [dt] are passed by the
    caller. *)
Definition __init__ {RF : RootScalar F} (input_size hidden_size : nat)
  (p : LIFParameters.t F) (dt : F) (g : Generator.t F)
  : t * Generator.t F :=
  let '(w_in, g) := Generator.randn [hidden_size; input_size] g in
  let input_weights := NNParameter.new (divs w_in (np_sqrt input_size)) in
  let '(w_rec, g) := Generator.randn [hidden_size; hidden_size] g in
  let recurrent_weights :=
    NNParameter.new (divs w_rec (np_sqrt hidden_size)) in
  (mk input_weights recurrent_weights hidden_size p dt, g).

(** [torch.nn.Module.parameters]: the attributes that are Parameters. *)
Definition parameters (self : t) : list (NNParameter.t F) :=
  [input_weights self; recurrent_weights self].

(** [dtype] is [torch_float] when the caller leaves it out. *)
Definition initial_state (batch_size : nat) (device : torch_device)
  (dtype : dtype) : M t (LIFState.t F) :=
  hidden_size <- attr hidden_size ;;
  ret (LIFState.mk
         (zeros [batch_size; hidden_size] device dtype)
         (zeros [batch_size; hidden_size] device dtype)
         (zeros [batch_size; hidden_size] device dtype)).

Definition forward (input : tensor F) (state : LIFState.t F)
  : M t (tensor F * LIFState.t F) :=
  input_weights <- attr input_weights ;;
  recurrent_weights <- attr recurrent_weights ;;
  p <- attr p ;;
  dt <- attr dt ;;
  engine (lif_step input state (NNParameter.data input_weights)
            (NNParameter.data recurrent_weights) p dt).

#[global] Instance callable : Callable F t (LIFState.t F) := {
  call := forward
}.

End Def.
Arguments t F : clear implicits.
End LIFCell.

(* ================================================================== *)
(** ** [LIFLayer] *)

Module LIFLayer.
Section Def.
Context {F : Type} {SF : Scalar F}.
Context {C St : Type} {cell_callable : Callable F C St}.

(** The layer holds the cell object; what the cell writes to itself when
    it is called is seen through the layer. *)
Record t : Type := mk {
  cell : C
}.

(** [cell] is the class applied to [cell_args], here the construction
    that draws from the generator. *)
Definition __init__ (construct_cell : Generator.t F -> C * Generator.t F)
  (g : Generator.t F) : t * Generator.t F :=
  let '(c, g) := construct_cell g in (mk c, g).

(** [self.cell(x, state)]. *)
Definition self_cell (x : tensor F) (state : St) : M t (tensor F * St) :=
  fun self => let '(r, c) := call x state (cell self) in (r, mk c).

Definition forward (input : tensor F) (state : St) : M t (tensor F * St) :=
  inputs <- engine (unbind0 input) ;;
  let outputs : list (tensor F) := [] in
  '(outputs, state) <-
    for_range (length inputs)
      (fun i '(outputs, state) =>
         x <- engine (getitem inputs i) ;;
         '(out, state) <- self_cell x state ;;
         let outputs := outputs ++ [out] in
         ret (outputs, state))
      (outputs, state) ;;
  stacked <- engine (stack outputs) ;;
  ret (stacked, state).

End Def.
Arguments t C : clear implicits.
End LIFLayer.

(* ================================================================== *)
(** ** [LIFFeedForwardCell] *)

Module LIFFeedForwardCell.
Section Def.
Context {F : Type} {SF : Scalar F}.

Record t : Type := mk {
  shape : list nat;
  p : LIFParameters.t F;
  dt : F
}.

Definition __init__ (shape : list nat) (p : LIFParameters.t F) (dt : F) : t :=
  mk shape p dt.

(** [torch.nn.Module.parameters]: no attribute is a Parameter. *)
Definition parameters (self : t) : list (NNParameter.t F) := [].

Definition initial_state (batch_size : nat) (device : torch_device)
  (dtype : dtype) : M t (LIFFeedForwardState.t F) :=
  shape <- attr shape ;;
  ret (LIFFeedForwardState.mk
         (zeros (batch_size :: shape) device dtype)
         (zeros (batch_size :: shape) device dtype)).

Definition forward (input : tensor F) (state : LIFFeedForwardState.t F)
  : M t (tensor F * LIFFeedForwardState.t F) :=
  p <- attr p ;;
  dt <- attr dt ;;
  engine (lif_feed_forward_step input state p dt).

#[global] Instance callable : Callable F t (LIFFeedForwardState.t F) := {
  call := forward
}.

End Def.
Arguments t F : clear implicits.
End LIFFeedForwardCell.

(* ================================================================== *)
(** ** [LIFConstantCurrentEncoder] *)

Module LIFConstantCurrentEncoder.
Section Def.
Context {F : Type} {SF : Scalar F}.

Record t : Type := mk {
  seq_length : nat;
  p : LIFParameters.t F;
  device : torch_device;
  dt : F
}.

Definition __init__ (seq_length : nat) (p : LIFParameters.t F) (dt : F)
  (device : torch_device) : t :=
  mk seq_length p device dt.

(** [torch.nn.Module.parameters]: no attribute is a Parameter. *)
Definition parameters (self : t) : list (NNParameter.t F) := [].

Definition forward (x : tensor F) : M t (tensor F * tensor F) :=
  device <- attr device ;;
  v <- engine (zeros_unpacked (t_shape x) device torch_float) ;;
  z <- engine (zeros_unpacked (t_shape x) device torch_float) ;;
  seq_length <- attr seq_length ;;
  let voltages := zeros (seq_length :: t_shape x) device torch_float in
  let spikes := zeros (seq_length :: t_shape x) device torch_float in
  '(z, v, voltages, spikes) <-
    for_range seq_length
      (fun ts '(z, v, voltages, spikes) =>
         p <- attr p ;;
         dt <- attr dt ;;
         '(z, v) <- engine (lif_current_encoder x v p dt) ;;
         voltages <- engine (setitem3 voltages ts v) ;;
         spikes <- engine (setitem3 spikes ts z) ;;
         ret (z, v, voltages, spikes))
      (z, v, voltages, spikes) ;;
  ret (voltages, spikes).

End Def.
Arguments t F : clear implicits.
End LIFConstantCurrentEncoder.

(* ================================================================== *)
(** ** Specifications *)

(** A computation that leaves the object it runs on as it found it,
    whether it returns or raises. *)
Definition preserves {S A : Type} (m : M S A) : Prop :=
  forall self, snd (m self) = self.

Section Specification.

Context {F : Type} {SF : Scalar F}.

(** A tensor of the given shape, device and dtype whose entries are all
    zero. *)
Definition zero_filled (shape : list nat) (dev : torch_device) (dt : dtype)
  (x : tensor F) : Prop :=
  t_shape x = shape /\ t_device x = dev /\ t_dtype x = dt /\
  length (t_data x) = numel shape /\
  Forall (fun a => a = fzero) (t_data x).

(** The [k]-th entry of a tensor, in row-major order. *)
Definition entry (x : tensor F) (k : nat) : option F := nth_error (t_data x) k.

Section ByHand.

Context {C St : Type} {cell_callable : Callable F C St}.

(** Invoking the cell by hand on [input[t]], [input[t+1]], ... for [n]
    steps, each step receiving the state the previous one returned. *)
Fixpoint steps_by_hand (input : tensor F) (t n : nat) (state : St)
  : M C (list (tensor F) * St) :=
  match n with
  | 0 => ret ([], state)
  | S n' =>
      x <- engine (select0 input t) ;;
      '(out, state) <- call x state ;;
      '(outs, final) <- steps_by_hand input (S t) n' state ;;
      ret (out :: outs, final)
  end.

(** The length of the first dimension, [input.shape[0]]. *)
Definition size0 (input : tensor F) : result nat :=
  match t_shape input with
  | [] => Raise IndexError
  | n :: _ => Ok n
  end.

(** The whole sequence by hand: one cell call per time step, then the
    outputs stacked. *)
Definition unrolled_by_hand (input : tensor F) (state : St)
  : M C (tensor F * St) :=
  T <- engine (size0 input) ;;
  '(outs, final) <- steps_by_hand input 0 T state ;;
  stacked <- engine (stack outs) ;;
  ret (stacked, final).

End ByHand.

(** The encoder's recurrence written out: [n] steps of the current
    encoder from potential [v], every step driven by the same [x]; the
    list holds [(z_t, v_t)] for the successive steps. *)
Fixpoint encoder_steps (x v : tensor F) (p : LIFParameters.t F) (dt : F)
  (n : nat) : result (list (tensor F * tensor F)) :=
  match n with
  | 0 => Ok []
  | S n' =>
      '(z1, v1) <~ lif_current_encoder x v p dt ;;
      rest <~ encoder_steps x v1 p dt n' ;;
      Ok ((z1, v1) :: rest)
  end.

(** The invariant of an output buffer of the encoder: of shape
    [N :: S], with the rows written so far in [filled], in order, and
    zeros after them. *)
Definition buffer_holds (N : nat) (S : list nat) (buf : tensor F)
  (filled : list (list F)) : Prop :=
  t_shape buf = N :: S /\
  t_data buf
  = concat filled ++ repeat fzero ((N - length filled) * numel S) /\
  Forall (fun row => length row = numel S) filled.

End Specification.

(* ================================================================== *)
(** ** Sample objects *)

Definition qc (a : Z) (b : positive) : Qc := Q2Qc (a # b).

Definition sample_parameters : LIFParameters.t Qc :=
  LIFParameters.mk (qc 200 1) (qc 100 1) (qc 0 1) (qc 1 1) (qc (-1) 1).

Definition cpu : torch_device := "cpu"%string.
Definition cuda : torch_device := "cuda:0"%string.

Definition sample_cell : LIFCell.t Qc :=
  LIFCell.mk
    (NNParameter.new
       (mkTensor [2; 3] cpu float32
          [qc 1 1; qc 2 1; qc 3 1; qc 1 100; qc 1 100; qc 1 100]))
    (NNParameter.new
       (mkTensor [2; 2] cpu float32 [qc 1 1; qc 0 1; qc 0 1; qc 1 1]))
    2 sample_parameters (qc 1 1000).

(** The same cell with another [hidden_size] attribute. *)
Definition sample_cell' : LIFCell.t Qc :=
  LIFCell.mk (LIFCell.input_weights sample_cell)
    (LIFCell.recurrent_weights sample_cell) 7 sample_parameters (qc 1 1000).

Definition sample_state : LIFState.t Qc :=
  LIFState.mk (zeros [1; 2] cpu float32) (zeros [1; 2] cpu float32)
    (zeros [1; 2] cpu float32).

(** One batch row of three inputs: it makes the first neuron spike and
    leaves the second below the threshold. *)
Definition sample_input : tensor Qc :=
  mkTensor [1; 3] cpu float32 [qc 100 1; qc 100 1; qc 100 1].

(** A sequence of two time steps. *)
Definition sample_sequence : tensor Qc :=
  mkTensor [2; 1; 3] cpu float32
    [qc 1 1; qc 1 1; qc 1 1; qc 100 1; qc 100 1; qc 100 1].

(** A sequence of no time step. *)
Definition empty_sequence : tensor Qc := mkTensor [0; 1; 3] cpu float32 [].

Definition sample_encoder : LIFConstantCurrentEncoder.t Qc :=
  LIFConstantCurrentEncoder.mk 3 sample_parameters cpu (qc 1 1000).

Definition sample_matrix : tensor Qc :=
  mkTensor [2; 2] cpu float32 [qc 12 1; qc 0 1; qc 5 1; qc 3 1].

Definition sample_vector : tensor Qc :=
  mkTensor [4] cpu float32 [qc 12 1; qc 0 1; qc 5 1; qc 3 1].

Definition sample_matrix_cuda : tensor Qc :=
  mkTensor [2; 2] cuda float32 [qc 12 1; qc 0 1; qc 5 1; qc 3 1].

(* ================================================================== *)
(** ** Further notions used to state how the modules compose *)

Section Composition.

Context {F : Type} {SF : Scalar F}.

(** [torch.cat([a, b])] along the first dimension: the other dimensions
    and the devices must agree. *)
Definition cat0 (a b : tensor F) : result (tensor F) :=
  match t_shape a, t_shape b with
  | n :: ra, m :: rb =>
      if shape_eqb ra rb && String.eqb (t_device a) (t_device b)
      then Ok (mkTensor ((n + m) :: ra) (t_device a)
                 (promote (t_dtype a) (t_dtype b))
                 (t_data a ++ t_data b))
      else Raise RuntimeError
  | _, _ => Raise RuntimeError
  end.

(** [x.unsqueeze(0)]: the same entries under a new first dimension of
    length 1. *)
Definition unsqueeze0 (x : tensor F) : tensor F :=
  mkTensor (1 :: t_shape x) (t_device x) (t_dtype x) (t_data x).

(** A tensor of a given shape on a given device. *)
Definition has_layout (shape : list nat) (dev : torch_device) (x : tensor F)
  : Prop :=
  t_shape x = shape /\ t_device x = dev.

(** A state of the recurrent cell whose three tensors have one layout. *)
Definition state_layout (shape : list nat) (dev : torch_device)
  (s : LIFState.t F) : Prop :=
  has_layout shape dev (LIFState.z s) /\
  has_layout shape dev (LIFState.v s) /\
  has_layout shape dev (LIFState.i s).

(** A state of the feed-forward cell whose two tensors have one layout. *)
Definition ff_state_layout (shape : list nat) (dev : torch_device)
  (s : LIFFeedForwardState.t F) : Prop :=
  has_layout shape dev (LIFFeedForwardState.v s) /\
  has_layout shape dev (LIFFeedForwardState.i s).


(** One dtype for a tensor and for the three tensors of a state. *)
Definition has_dtype (dt : dtype) (x : tensor F) : Prop := t_dtype x = dt.

Definition state_dtype (dt : dtype) (s : LIFState.t F) : Prop :=
  has_dtype dt (LIFState.z s) /\
  has_dtype dt (LIFState.v s) /\
  has_dtype dt (LIFState.i s).

(** A tensor, and a state, of a given shape, device and dtype. *)
Definition typed_layout (shape : list nat) (dev : torch_device) (dt : dtype)
  (x : tensor F) : Prop :=
  has_layout shape dev x /\ has_dtype dt x.

Definition typed_state (shape : list nat) (dev : torch_device) (dt : dtype)
  (s : LIFState.t F) : Prop :=
  state_layout shape dev s /\ state_dtype dt s.

End Composition.

(** The two time steps of [sample_sequence], each as a sequence of its
    own. *)
Definition sample_first_part : tensor Qc :=
  mkTensor [1; 1; 3] cpu float32 [qc 1 1; qc 1 1; qc 1 1].

Definition sample_second_part : tensor Qc :=
  mkTensor [1; 1; 3] cpu float32 [qc 100 1; qc 100 1; qc 100 1].

(** The sample encoder with two time steps instead of three. *)
Definition sample_short_encoder : LIFConstantCurrentEncoder.t Qc :=
  LIFConstantCurrentEncoder.mk 2 sample_parameters cpu (qc 1 1000).

Definition sample_ff_cell : LIFFeedForwardCell.t Qc :=
  LIFFeedForwardCell.mk [3] sample_parameters (qc 1 1000).

Definition sample_ff_state : LIFFeedForwardState.t Qc :=
  LIFFeedForwardState.mk (zeros [1; 3] cpu float32) (zeros [1; 3] cpu float32).

(** A generator over the reals and an input for a cell built from it. *)
Definition real_generator : Generator.t R := Generator.mk INR 0.

Definition real_parameters : LIFParameters.t R :=
  LIFParameters.mk 200%R 100%R 0%R 1%R 0%R.

Definition real_input : tensor R :=
  mkTensor [2; 3] cpu float32 [1; 2; 3; 4; 5; 6]%R.

Definition real_sequence : tensor R :=
  mkTensor [1; 2; 3] cpu float32 [1; 2; 3; 4; 5; 6]%R.

(** Objects over binary64 numbers: a cell of one neuron with one input. *)
Module FloatSamples.
Import PrimFloat.

Definition parameters : LIFParameters.t float :=
  LIFParameters.mk 200%float 100%float 0%float 1%float 0%float.

Definition cell : LIFCell.t float :=
  LIFCell.mk
    (NNParameter.new (mkTensor [1; 1] cpu float64 [1%float]))
    (NNParameter.new (mkTensor [1; 1] cpu float64 [1%float]))
    1 parameters 0.0009765625%float.

Definition state : LIFState.t float :=
  LIFState.mk (zeros [1; 1] cpu float64) (zeros [1; 1] cpu float64)
    (zeros [1; 1] cpu float64).

(** An input strong enough to make the neuron spike. *)
Definition input : tensor float := mkTensor [1; 1] cpu float64 [100%float].

(** An infinite input. *)
Definition infinite_input : tensor float :=
  mkTensor [1; 1] cpu float64 [infinity].

Definition encoder : LIFConstantCurrentEncoder.t float :=
  LIFConstantCurrentEncoder.mk 2 parameters cpu 0.0009765625%float.

Definition matrix : tensor float :=
  mkTensor [1; 2] cpu float64 [2000%float; infinity].

End FloatSamples.

(** A cell for the examples: it passes its input through, counts the
    calls in the state, and raises once its budget of calls is used up;
    each call writes the remaining budget to the cell. *)
Module BudgetCell.
Section Def.
Context {F : Type}.

Record t : Type := mk {
  budget : nat
}.

Definition forward (input : tensor F) (state : nat) : M t (tensor F * nat) :=
  fun self =>
    match budget self with
    | 0 => (Raise RuntimeError, self)
    | S remaining => (Ok (input, S state), mk remaining)
    end.

#[global] Instance callable : Callable F t nat := {
  call := forward
}.

End Def.
End BudgetCell.

(* ================================================================== *)
(** ** Computations that leave [self] alone *)

Section Frame.

Context {S : Type}.

Lemma preserves_ret {A : Type} (a : A) : preserves (@ret S A a).
Proof. intros s. reflexivity. Qed.

Lemma preserves_attr {A : Type} (f : S -> A) : preserves (attr f).
Proof. intros s. reflexivity. Qed.

Lemma preserves_engine {A : Type} (r : result A) : preserves (@engine S A r).
Proof. intros s. reflexivity. Qed.

Lemma preserves_bind {A B : Type} (m : M S A) (k : A -> M S B) :
  preserves m -> (forall a, preserves (k a)) -> preserves (bind m k).
Proof.
  intros Hm Hk s. unfold bind.
  specialize (Hm s). destruct (m s) as [[a | e] s']; simpl in Hm; subst s'.
  - apply Hk.
  - reflexivity.
Qed.

Lemma preserves_for_in {A : Type} (idx : list nat) (body : nat -> A -> M S A) :
  (forall i a, preserves (body i a)) ->
  forall acc, preserves (for_in idx body acc).
Proof.
  intros Hbody. induction idx as [| i rest IH]; intros acc; simpl.
  - apply preserves_ret.
  - apply preserves_bind; [apply Hbody | exact IH].
Qed.

End Frame.

Ltac frame :=
  repeat first
    [ apply preserves_ret | apply preserves_attr | apply preserves_engine
    | apply preserves_for_in; intros
    | apply preserves_bind; [| intros]
    | match goal with |- preserves (match ?x with _ => _ end) => destruct x end ].

Section ModuleFrames.

Context {F : Type} {SF : Scalar F}.

Lemma LIFCell_forward_preserves (input : tensor F) (state : LIFState.t F) :
  preserves (LIFCell.forward input state).
Proof. unfold LIFCell.forward. frame. Qed.

Lemma LIFCell_initial_state_preserves b dev dt :
  preserves (LIFCell.initial_state (F := F) b dev dt).
Proof. unfold LIFCell.initial_state. frame. Qed.

Lemma LIFFeedForwardCell_forward_preserves (input : tensor F)
  (state : LIFFeedForwardState.t F) :
  preserves (LIFFeedForwardCell.forward input state).
Proof. unfold LIFFeedForwardCell.forward. frame. Qed.

Lemma LIFConstantCurrentEncoder_forward_preserves (x : tensor F) :
  preserves (LIFConstantCurrentEncoder.forward x).
Proof.
  unfold LIFConstantCurrentEncoder.forward, for_range. frame.
Qed.

(** The layer changes its cell only through the cell's own [forward]. *)
Lemma LIFLayer_forward_preserves {C St : Type} {cc : Callable F C St}
  (input : tensor F) (state : St) :
  (forall x s, preserves (call (C := C) x s)) ->
  preserves (LIFLayer.forward (C := C) input state).
Proof.
  intros Hcell. unfold LIFLayer.forward, for_range. frame.
  match goal with |- preserves (LIFLayer.self_cell ?x ?s) =>
    intros [c]; unfold LIFLayer.self_cell; simpl;
    specialize (Hcell x s c); destruct (call x s c) as [r c']
  end.
  simpl in *. now subst.
Qed.

End ModuleFrames.

(* ================================================================== *)
(** ** Zero-filled tensors and the initial states *)

Section InitialStates.

Context {F : Type} {SF : Scalar F}.

Lemma zeros_zero_filled (shape : list nat) (dev : torch_device) (dt : dtype) :
  zero_filled shape dev dt (zeros (F := F) shape dev dt).
Proof.
  unfold zero_filled, zeros; simpl. repeat split.
  - apply repeat_length.
  - apply Forall_forall. intros a Ha. now apply repeat_spec in Ha.
Qed.

(** C2.  For every batch size, device and dtype, [LIFCell.initial_state]
    returns a state whose tensors [z], [v] and [i] are zero-filled, of
    shape [batch_size, hidden_size], on that device and with that dtype;
    the cell is left as it was. *)
Theorem LIFCell_initial_state_zero_filled (self : LIFCell.t F)
  (batch_size : nat) (dev : torch_device) (dt : dtype) :
  exists s : LIFState.t F,
    LIFCell.initial_state batch_size dev dt self = (Ok s, self) /\
    zero_filled [batch_size; LIFCell.hidden_size self] dev dt (LIFState.z s) /\
    zero_filled [batch_size; LIFCell.hidden_size self] dev dt (LIFState.v s) /\
    zero_filled [batch_size; LIFCell.hidden_size self] dev dt (LIFState.i s) /\
    numel [batch_size; LIFCell.hidden_size self]
      = batch_size * LIFCell.hidden_size self.
Proof.
  eexists. split; [reflexivity |]. simpl.
  repeat split; try apply zeros_zero_filled.
  now rewrite Nat.mul_1_r.
Qed.

(** C8.  [LIFFeedForwardCell] has no trainable parameter, and for every
    batch size, device and dtype its [initial_state] returns a state whose
    tensors [v] and [i] are zero-filled, of shape [batch_size, *shape]
    for the feature shape given at construction. *)
Theorem LIFFeedForwardCell_no_parameters_zero_state
  (shape : list nat) (p : LIFParameters.t F) (dt : F)
  (batch_size : nat) (dev : torch_device) (dty : dtype) :
  let self := LIFFeedForwardCell.__init__ shape p dt in
  LIFFeedForwardCell.parameters self = [] /\
  exists s : LIFFeedForwardState.t F,
    LIFFeedForwardCell.initial_state batch_size dev dty self = (Ok s, self) /\
    zero_filled (batch_size :: shape) dev dty (LIFFeedForwardState.v s) /\
    zero_filled (batch_size :: shape) dev dty (LIFFeedForwardState.i s) /\
    numel (batch_size :: shape) = batch_size * numel shape.
Proof.
  simpl. split; [reflexivity |].
  eexists. split; [reflexivity |]. simpl.
  repeat split; apply zeros_zero_filled.
Qed.

End InitialStates.

(* ================================================================== *)
(** ** The forward calls and the module object *)

Section ForwardFrames.

Context {F : Type} {SF : Scalar F}.

(** C9.  No forward call writes to the module it runs on: the weights,
    [p], [dt], [hidden_size], [shape], [seq_length], [device] and the
    layer's cell are after the call what they were before it, whether the
    call returns or raises. *)
Theorem forward_leaves_module_unchanged :
  (forall (input : tensor F) (state : LIFState.t F),
      preserves (LIFCell.forward input state)) /\
  (forall (input : tensor F) (state : LIFFeedForwardState.t F),
      preserves (LIFFeedForwardCell.forward input state)) /\
  (forall x : tensor F, preserves (LIFConstantCurrentEncoder.forward x)) /\
  (forall (input : tensor F) (state : LIFState.t F),
      preserves (LIFLayer.forward (C := LIFCell.t F) input state)) /\
  (forall (input : tensor F) (state : LIFFeedForwardState.t F),
      preserves (LIFLayer.forward (C := LIFFeedForwardCell.t F) input state)).
Proof.
  refine (conj _ (conj _ (conj _ (conj _ _)))); intros.
  - apply LIFCell_forward_preserves.
  - apply LIFFeedForwardCell_forward_preserves.
  - apply LIFConstantCurrentEncoder_forward_preserves.
  - apply LIFLayer_forward_preserves. intros. apply LIFCell_forward_preserves.
  - apply LIFLayer_forward_preserves. intros.
    apply LIFFeedForwardCell_forward_preserves.
Qed.

(** What [LIFCell.forward] computes, read off the cell. *)
Lemma LIFCell_forward_eq (input : tensor F) (state : LIFState.t F)
  (self : LIFCell.t F) :
  LIFCell.forward input state self =
  (lif_step input state
     (NNParameter.data (LIFCell.input_weights self))
     (NNParameter.data (LIFCell.recurrent_weights self))
     (LIFCell.p self) (LIFCell.dt self),
   self).
Proof. reflexivity. Qed.

(** C3.  [LIFCell.forward] is a function of the input, the state, the two
    weight matrices, [p] and [dt]: a second call with the same arguments,
    on the cell as the first call left it, returns the same pair, and so
    does a call on any cell that agrees on the weights, [p] and [dt]. *)
Theorem LIFCell_forward_deterministic (self other : LIFCell.t F)
  (input : tensor F) (state : LIFState.t F) :
  LIFCell.input_weights self = LIFCell.input_weights other ->
  LIFCell.recurrent_weights self = LIFCell.recurrent_weights other ->
  LIFCell.p self = LIFCell.p other ->
  LIFCell.dt self = LIFCell.dt other ->
  let first := LIFCell.forward input state self in
  let second := LIFCell.forward input state (snd first) in
  fst second = fst first /\
  fst (LIFCell.forward input state other) = fst first /\
  fst first = lif_step input state
                (NNParameter.data (LIFCell.input_weights self))
                (NNParameter.data (LIFCell.recurrent_weights self))
                (LIFCell.p self) (LIFCell.dt self).
Proof.
  intros Hin Hrec Hp Hdt. cbv zeta.
  rewrite !LIFCell_forward_eq. simpl.
  rewrite Hin, Hrec, Hp, Hdt. auto.
Qed.

(** C10.  On an input whose first dimension has length 0 the layer never
    calls its cell and [torch.stack] raises on the empty list: no pair is
    returned. *)
Theorem LIFLayer_forward_empty_sequence {C St : Type}
  {cc : Callable F C St} (self : LIFLayer.t C) (input : tensor F)
  (state : St) (rest : list nat) :
  t_shape input = 0 :: rest ->
  LIFLayer.forward input state self = (Raise RuntimeError, self).
Proof.
  intros Hshape. unfold LIFLayer.forward, bind, engine, unbind0.
  rewrite Hshape. reflexivity.
Qed.

End ForwardFrames.

Lemma LIFCell_forward_deterministic_witness :
  let first := LIFCell.forward sample_input sample_state sample_cell in
  LIFCell.hidden_size sample_cell <> LIFCell.hidden_size sample_cell' /\
  fst (LIFCell.forward sample_input sample_state (snd first)) = fst first /\
  fst (LIFCell.forward sample_input sample_state sample_cell') = fst first /\
  fst first = lif_step sample_input sample_state
                (NNParameter.data (LIFCell.input_weights sample_cell))
                (NNParameter.data (LIFCell.recurrent_weights sample_cell))
                (LIFCell.p sample_cell) (LIFCell.dt sample_cell).
Proof.
  split; [simpl; lia |].
  apply (LIFCell_forward_deterministic sample_cell sample_cell');
    reflexivity.
Defined.

Lemma LIFLayer_forward_empty_sequence_witness :
  LIFLayer.forward empty_sequence sample_state (LIFLayer.mk sample_cell)
  = (Raise RuntimeError, LIFLayer.mk sample_cell).
Proof.
  apply (LIFLayer_forward_empty_sequence (LIFLayer.mk sample_cell)
           empty_sequence sample_state [1; 3]).
  reflexivity.
Defined.

(* ================================================================== *)
(** ** Weight initialisation *)

Section Init.

Context {F : Type} {SF : Scalar F} {RF : RootScalar F}.

Lemma randn_entry (shape : list nat) (g : Generator.t F) (k : nat) :
  k < numel shape ->
  entry (fst (Generator.randn shape g)) k
  = Some (Generator.samples g (Generator.consumed g + k)).
Proof.
  intros Hk. unfold entry, Generator.randn; simpl.
  rewrite nth_error_map, nth_error_nth' with (d := 0)
    by now rewrite length_seq.
  simpl. now rewrite seq_nth.
Qed.

Lemma divs_entry (x : tensor F) (c : F) (k : nat) (a : F) :
  entry x k = Some a -> entry (divs x c) k = Some (fdiv a c).
Proof.
  unfold entry, divs; simpl. intros H.
  now rewrite nth_error_map, H.
Qed.

Lemma numel_matrix (rows cols : nat) : numel [rows; cols] = rows * cols.
Proof. simpl. now rewrite Nat.mul_1_r. Qed.

(** C7.  The constructor of [LIFCell] takes the next
    [hidden_size * input_size] samples of the standard-normal generator
    as a [hidden_size, input_size] matrix and divides each by the square
    root of [input_size], then the next [hidden_size * hidden_size]
    samples as a [hidden_size, hidden_size] matrix and divides each by
    the square root of [hidden_size]; both are registered as
    parameters. *)
Theorem LIFCell_init_weights (input_size hidden_size : nat)
  (p : LIFParameters.t F) (dt : F) (g : Generator.t F) :
  let cell := fst (LIFCell.__init__ input_size hidden_size p dt g) in
  let g' := snd (LIFCell.__init__ input_size hidden_size p dt g) in
  let w_in := NNParameter.data (LIFCell.input_weights cell) in
  let w_rec := NNParameter.data (LIFCell.recurrent_weights cell) in
  t_shape w_in = [hidden_size; input_size] /\
  t_shape w_rec = [hidden_size; hidden_size] /\
  length (t_data w_in) = hidden_size * input_size /\
  length (t_data w_rec) = hidden_size * hidden_size /\
  (forall k, k < hidden_size * input_size ->
     entry w_in k
     = Some (fdiv (Generator.samples g (Generator.consumed g + k))
                  (np_sqrt input_size))) /\
  (forall k, k < hidden_size * hidden_size ->
     entry w_rec k
     = Some (fdiv (Generator.samples g
                     (Generator.consumed g + hidden_size * input_size + k))
                  (np_sqrt hidden_size))) /\
  Generator.consumed g'
  = Generator.consumed g + hidden_size * input_size
    + hidden_size * hidden_size /\
  LIFCell.parameters cell
  = [NNParameter.mk w_in true; NNParameter.mk w_rec true].
Proof.
  cbv zeta. unfold LIFCell.__init__.
  destruct (Generator.randn [hidden_size; input_size] g) as [w1 g1] eqn:E1.
  destruct (Generator.randn [hidden_size; hidden_size] g1) as [w2 g2] eqn:E2.
  assert (Hw1 : w1 = fst (Generator.randn [hidden_size; input_size] g))
    by now rewrite E1.
  assert (Hg1 : g1 = snd (Generator.randn [hidden_size; input_size] g))
    by now rewrite E1.
  assert (Hw2 : w2 = fst (Generator.randn [hidden_size; hidden_size] g1))
    by now rewrite E2.
  assert (Hg2 : g2 = snd (Generator.randn [hidden_size; hidden_size] g1))
    by now rewrite E2.
  clear E1 E2. simpl.
  refine (conj _ (conj _ (conj _ (conj _ (conj _ (conj _ (conj _ _))))))).
  - now subst w1.
  - now subst w2.
  - subst w1. simpl. rewrite length_map, length_map, length_seq. lia.
  - subst w2. simpl. rewrite length_map, length_map, length_seq. lia.
  - intros k Hk. apply divs_entry. subst w1.
    apply randn_entry. now rewrite numel_matrix.
  - intros k Hk. apply divs_entry. subst w2.
    rewrite randn_entry by now rewrite numel_matrix.
    subst g1. simpl. now rewrite Nat.mul_1_r.
  - subst g2 g1. simpl. lia.
  - reflexivity.
Qed.

End Init.

(* ================================================================== *)
(** ** Slices of a tensor *)

Section Slices.

Context {A : Type}.

Lemma chunks_length (k n : nat) (l : list A) : length (chunks k n l) = n.
Proof.
  revert l. induction n as [| n IH]; intros l; simpl; [| rewrite IH]; reflexivity.
Qed.

Lemma chunks_nth_error (k n : nat) (l : list A) (i : nat) :
  i < n ->
  nth_error (chunks k n l) i = Some (firstn k (skipn (i * k) l)).
Proof.
  revert l i. induction n as [| n IH]; intros l i Hi; [lia |].
  destruct i as [| i]; simpl.
  - reflexivity.
  - rewrite IH by lia. now rewrite Nat.add_comm, <- skipn_skipn.
Qed.

End Slices.

Section Unbind.

Context {F : Type} {SF : Scalar F}.

(** The [i]-th element of [input.unbind(0)] is [input[i]]. *)
Lemma unbind0_getitem (input : tensor F) (T : nat) (rest : list nat) :
  t_shape input = T :: rest ->
  exists inputs,
    unbind0 input = Ok inputs /\
    length inputs = T /\
    forall i, i < T -> getitem inputs i = select0 input i.
Proof.
  intros Hshape. unfold unbind0. rewrite Hshape.
  eexists. split; [reflexivity |]. split.
  - now rewrite length_map, chunks_length.
  - intros i Hi. unfold getitem, select0. rewrite Hshape.
    rewrite nth_error_map, chunks_nth_error by assumption. simpl.
    apply Nat.ltb_lt in Hi. now rewrite Hi.
Qed.

End Unbind.

(* ================================================================== *)
(** ** The layer against the cell invoked by hand *)

Section Layer.

Context {F : Type} {SF : Scalar F}.
Context {C St : Type} {cc : Callable F C St}.

(** The loop of [LIFLayer.forward] from index [t] on, against the same
    steps taken by hand. *)
Lemma layer_loop_by_hand (input : tensor F) (inputs : list (tensor F))
  (T : nat) :
  (forall i, i < T -> getitem inputs i = select0 input i) ->
  forall (n t : nat) (acc : list (tensor F)) (state : St)
         (self : LIFLayer.t C),
    t + n = T ->
    for_in (seq t n)
      (fun i '(outputs, state) =>
         x <- engine (getitem inputs i) ;;
         '(out, state) <- LIFLayer.self_cell x state ;;
         ret (outputs ++ [out], state))
      (acc, state) self
    = match steps_by_hand input t n state (LIFLayer.cell self) with
      | (Ok (outs, final), c) => (Ok (acc ++ outs, final), LIFLayer.mk c)
      | (Raise e, c) => (Raise e, LIFLayer.mk c)
      end.
Proof.
  intros Hget. induction n as [| n IH]; intros t acc state [c] Hlen; simpl.
  - unfold ret. now rewrite app_nil_r.
  - unfold bind, engine, ret, LIFLayer.self_cell in *. simpl.
    rewrite Hget by lia.
    destruct (select0 input t) as [x | e]; [| reflexivity].
    destruct (call x state c) as [[[out state1] | e] c1]; [| reflexivity].
    rewrite IH by lia. simpl.
    destruct (steps_by_hand input (S t) n state1 c1)
      as [[[outs final] | e] c2]; [| reflexivity].
    now rewrite <- app_assoc.
Qed.

Lemma steps_by_hand_length (input : tensor F) (n t : nat) (state : St)
  (c c' : C) (outs : list (tensor F)) (final : St) :
  steps_by_hand input t n state c = (Ok (outs, final), c') ->
  length outs = n.
Proof.
  revert t state c outs. induction n as [| n IH]; intros t state c outs; simpl.
  - unfold ret. intros H. now inversion H.
  - unfold bind at 1. unfold engine.
    destruct (select0 input t) as [x | e]; [| discriminate].
    unfold bind at 1.
    destruct (call x state c) as [[[out state1] | e] c1]; [| discriminate].
    unfold bind.
    destruct (steps_by_hand input (S t) n state1 c1)
      as [[[outs' final'] | e] c2] eqn:E; [| discriminate].
    unfold ret. intros H. inversion H; subst. simpl. f_equal.
    eapply IH. exact E.
Qed.

(** C1.  On an input of [T >= 1] time steps, [LIFLayer.forward] is, as a
    computation on the cell, the cell invoked by hand on [input[0]], ...,
    [input[T-1]] with each returned state passed to the next call, and
    when those [T] calls return, the layer returns exactly the stack of
    their [T] outputs, in that order, with the state of the last call. *)
Theorem LIFLayer_forward_unrolls (self : LIFLayer.t C) (input : tensor F)
  (state : St) (T : nat) (rest : list nat) :
  t_shape input = T :: rest ->
  1 <= T ->
  LIFLayer.forward input state self
  = (let '(r, c) := unrolled_by_hand input state (LIFLayer.cell self) in
     (r, LIFLayer.mk c)) /\
  forall (outs : list (tensor F)) (final : St) (c : C),
    steps_by_hand input 0 T state (LIFLayer.cell self) = (Ok (outs, final), c) ->
    length outs = T /\
    LIFLayer.forward input state self
    = (stacked <~ stack outs ;; Ok (stacked, final), LIFLayer.mk c).
Proof.
  intros Hshape HT.
  destruct (unbind0_getitem input T rest Hshape) as (inputs & Hunbind & Hlen & Hget).
  assert (Hloop :
    LIFLayer.forward input state self
    = match steps_by_hand input 0 T state (LIFLayer.cell self) with
      | (Ok (outs, final), c) =>
          (stacked <~ stack outs ;; Ok (stacked, final), LIFLayer.mk c)
      | (Raise e, c) => (Raise e, LIFLayer.mk c)
      end).
  { unfold LIFLayer.forward, for_range.
    unfold bind at 1. unfold engine at 1. rewrite Hunbind, Hlen.
    unfold bind at 1.
    rewrite (layer_loop_by_hand input inputs T Hget T 0 [] state self eq_refl).
    destruct (steps_by_hand input 0 T state (LIFLayer.cell self))
      as [[[outs final] | e] c]; [| reflexivity].
    simpl. unfold bind, engine, ret.
    destruct (stack outs); reflexivity. }
  split.
  - rewrite Hloop. unfold unrolled_by_hand, size0. rewrite Hshape.
    unfold bind at 1. unfold engine at 1. unfold bind at 1.
    destruct (steps_by_hand input 0 T state (LIFLayer.cell self))
      as [[[outs final] | e] c]; [| reflexivity].
    unfold bind, engine, ret. destruct (stack outs); reflexivity.
  - intros outs final c Hsteps. split.
    + eapply steps_by_hand_length. exact Hsteps.
    + rewrite Hloop, Hsteps. reflexivity.
Qed.

End Layer.

Lemma LIFLayer_forward_unrolls_witness :
  let self := LIFLayer.mk sample_cell in
  LIFLayer.forward sample_sequence sample_state self
  = (let '(r, c) := unrolled_by_hand sample_sequence sample_state sample_cell in
     (r, LIFLayer.mk c)) /\
  forall outs final c,
    steps_by_hand sample_sequence 0 2 sample_state sample_cell
    = (Ok (outs, final), c) ->
    length outs = 2 /\
    LIFLayer.forward sample_sequence sample_state self
    = (stacked <~ stack outs ;; Ok (stacked, final), LIFLayer.mk c).
Proof.
  apply (LIFLayer_forward_unrolls (LIFLayer.mk sample_cell) sample_sequence
           sample_state 2 [1; 3]).
  - reflexivity.
  - lia.
Defined.

(* ================================================================== *)
(** ** Element-wise operations, entry by entry *)

Section Elementwise.

Context {F : Type} {SF : Scalar F}.

Lemma zip_with_length (f : F -> F -> F) (l1 l2 : list F) :
  length l1 = length l2 -> length (zip_with f l1 l2) = length l1.
Proof.
  revert l2. induction l1 as [| a l1 IH]; intros [| b l2] H; simpl in *;
    try discriminate; [reflexivity |].
  f_equal. apply IH. now injection H.
Qed.

Lemma zip_with_nth_error (f : F -> F -> F) (l1 l2 : list F) (k : nat)
  (a b : F) :
  nth_error l1 k = Some a -> nth_error l2 k = Some b ->
  nth_error (zip_with f l1 l2) k = Some (f a b).
Proof.
  revert l2 k. induction l1 as [| x l1 IH]; intros [| y l2] [| k] H1 H2;
    simpl in *; try discriminate.
  - now inversion H1; inversion H2.
  - now apply IH.
Qed.

Lemma shape_eqb_refl (s : list nat) : shape_eqb s s = true.
Proof. unfold shape_eqb. now destruct (list_eq_dec Nat.eq_dec s s). Qed.

Lemma shape_eqb_eq (a b : list nat) : shape_eqb a b = true -> a = b.
Proof.
  unfold shape_eqb. now destruct (list_eq_dec Nat.eq_dec a b).
Qed.

(** Two tensors of one shape on one device combine. *)
Lemma tzip_ok (f : F -> F -> F) (a b : tensor F) :
  t_device a = t_device b -> t_shape a = t_shape b ->
  tzip f a b
  = Ok (mkTensor (t_shape a) (t_device a) (promote (t_dtype a) (t_dtype b))
          (zip_with f (t_data a) (t_data b))).
Proof.
  intros Hd Hs. unfold tzip.
  now rewrite Hd, String.eqb_refl, Hs, shape_eqb_refl.
Qed.

(** Operands of shapes [2, 1] and [3] are broadcast to [2, 3]; a CPU
    tensor of no dimension goes with a tensor on another device and
    leaves its dtype alone; shapes [2, 1] and [2, 3] on two devices do
    not go together. *)
Example tzip_broadcasts :
  let a := mkTensor [2; 1] cpu float32 [qc 1 1; qc 2 1] in
  let b := mkTensor [3] cpu float64 [qc 10 1; qc 20 1; qc 30 1] in
  let c := mkTensor [] cpu float64 [qc 5 1] in
  let d := mkTensor [2; 3] cuda float32
             [qc 1 1; qc 2 1; qc 3 1; qc 4 1; qc 5 1; qc 6 1] in
  tadd a b
  = Ok (mkTensor [2; 3] cpu float64
          [qc 11 1; qc 21 1; qc 31 1; qc 12 1; qc 22 1; qc 32 1]) /\
  tadd c d
  = Ok (mkTensor [2; 3] cuda float32
          [qc 6 1; qc 7 1; qc 8 1; qc 9 1; qc 10 1; qc 11 1]) /\
  tadd a d = Raise RuntimeError /\
  tadd b (mkTensor [2] cpu float32 [qc 1 1; qc 2 1]) = Raise RuntimeError.
Proof.
  cbv zeta. repeat split; vm_compute; repeat f_equal; apply Qc_is_canon;
    reflexivity.
Qed.

(** Expanding to the shape a tensor already has changes nothing. *)
Lemma expand_same (shape : list nat) (data : list F) :
  length data = numel shape -> expand shape shape data = data.
Proof.
  revert data. induction shape as [| d shape IH]; intros data Hlen;
    [reflexivity |].
  simpl. rewrite Nat.eqb_refl. fold (numel shape).
  simpl in Hlen. fold (numel shape) in Hlen.
  revert data Hlen. induction d as [| d IHd]; intros data Hlen; simpl.
  - now destruct data.
  - rewrite IH by (rewrite length_firstn; nia).
    rewrite IHd by (rewrite length_skipn; nia).
    apply firstn_skipn.
Qed.

End Elementwise.

(* ================================================================== *)
(** ** The arithmetic of the reset *)

Section ExactArithmetic.

Context {F : Type} {SF : Scalar F} {EF : ExactScalar F}.

Add Ring scalar_ring_structure : (@scalar_ring F SF EF).

Lemma reset_spiked (v r : F) :
  fadd (fmul (fsub fone fone) v) (fmul fone r) = r.
Proof. ring. Qed.

Lemma reset_silent (v r : F) :
  fadd (fmul (fsub fone fzero) v) (fmul fzero r) = v.
Proof. ring. Qed.

(** Exact arithmetic satisfies the laws of the reset, with every scalar
    finite. *)
Lemma exact_ResetLaws : @ResetLaws F SF (exact_Finiteness F).
Proof.
  constructor; simpl.
  - intros _. now left.
  - intros v r _ _. apply reset_spiked.
  - intros v r H. now apply H.
  - intros v r _ _. apply reset_silent.
Qed.

End ExactArithmetic.

#[export] Instance Qc_ResetLaws : ResetLaws Qc := exact_ResetLaws.

#[export] Instance R_ResetLaws : ResetLaws R := exact_ResetLaws.

Section BinaryArithmetic.

Import SpecFloat.

Lemma Prim2SF_one : FloatOps.Prim2SF PrimFloat.one = one_sf.
Proof. vm_compute. reflexivity. Qed.

Lemma Prim2SF_one_minus_one :
  FloatOps.Prim2SF (PrimFloat.sub PrimFloat.one PrimFloat.one)
  = S754_zero false.
Proof. vm_compute. reflexivity. Qed.

Lemma Prim2SF_one_minus_zero :
  FloatOps.Prim2SF (PrimFloat.sub PrimFloat.one PrimFloat.zero) = one_sf.
Proof. vm_compute. reflexivity. Qed.

Lemma Prim2SF_zero : FloatOps.Prim2SF PrimFloat.zero = S754_zero false.
Proof. vm_compute. reflexivity. Qed.

Lemma digits2_pos_shift (m : positive) (n : nat) :
  Zpos (digits2_pos (Nat.iter n xO m))
  = (Zpos (digits2_pos m) + Z.of_nat n)%Z.
Proof.
  induction n as [| n IH].
  - simpl. lia.
  - change (Nat.iter (S n) xO m) with (xO (Nat.iter n xO m)).
    cbn [digits2_pos]. rewrite Pos2Z.inj_succ, IH. lia.
Qed.

Lemma digits2_pos_one_mul (m : positive) :
  Zpos (digits2_pos (Pos.mul 4503599627370496 m))
  = (Zpos (digits2_pos m) + 52)%Z.
Proof.
  change (Pos.mul 4503599627370496 m) with (Nat.iter 52 xO m).
  now rewrite digits2_pos_shift.
Qed.

(** Shifting the product of a mantissa with [2^52] back by 52 bits. *)
Lemma shr_one_mul (m : positive) :
  iter_pos shr_1 52
    (Build_shr_record (Zpos (Pos.mul 4503599627370496 m)) false false)
  = Build_shr_record (Zpos m) false false.
Proof. reflexivity. Qed.

(** Multiplying by 1 is exact on every binary64 number. *)
Lemma SFmul_one (s : spec_float) :
  FloatAxioms.valid_binary s = true ->
  FloatAxioms.SF64mul one_sf s = s.
Proof.
  intros Hv. destruct s as [sz | si | | sy my ey]; try reflexivity.
  unfold FloatAxioms.SF64mul, one_sf, SFmul.
  simpl in Hv. unfold bounded, canonical_mantissa in Hv.
  apply andb_prop in Hv as [Hc Hb].
  apply Z.eqb_eq in Hc.
  cbn [xorb].
  unfold binary_round_aux, shr_fexp.
  cbn [Zdigits2 shr_record_of_loc].
  rewrite digits2_pos_one_mul.
  replace (Z.pos (digits2_pos my) + 52 + (-52 + ey))%Z
    with (Z.pos (digits2_pos my) + ey)%Z by lia.
  rewrite Hc.
  replace (ey - (-52 + ey))%Z with 52%Z by lia.
  cbn [shr].
  rewrite shr_one_mul.
  cbn [shr_m loc_of_shr_record round_nearest_even Zdigits2
       shr_record_of_loc].
  replace (-52 + ey + 52)%Z with ey by lia.
  rewrite Hc, Z.sub_diag. cbn [shr shr_m].
  now rewrite Hb.
Qed.

Lemma sf_reset_of_spike (v r : spec_float) :
  FloatAxioms.valid_binary r = true ->
  sf_finite v = true ->
  r <> S754_zero true ->
  FloatAxioms.SF64add (FloatAxioms.SF64mul (S754_zero false) v)
    (FloatAxioms.SF64mul one_sf r) = r.
Proof.
  intros Hr Hv Hz. rewrite (SFmul_one r Hr).
  destruct v as [sv | sv | | sv mv ev]; try discriminate;
    destruct r as [[|] | sr | | sr mr er]; try reflexivity;
    try (now destruct sv); contradiction.
Qed.

Lemma sf_reset_of_overflow (v r : spec_float) :
  sf_finite v = false ->
  FloatAxioms.SF64add (FloatAxioms.SF64mul (S754_zero false) v)
    (FloatAxioms.SF64mul one_sf r) = S754_nan.
Proof.
  intros Hv.
  destruct v as [sv | sv | | sv mv ev]; try discriminate; reflexivity.
Qed.

Lemma sf_reset_of_silence (v r : spec_float) :
  FloatAxioms.valid_binary v = true ->
  sf_finite r = true ->
  v <> S754_zero true ->
  FloatAxioms.SF64add (FloatAxioms.SF64mul one_sf v)
    (FloatAxioms.SF64mul (S754_zero false) r) = v.
Proof.
  intros Hv Hr Hz. rewrite (SFmul_one v Hv).
  destruct r as [sr | sr | | sr mr er]; try discriminate;
    destruct v as [[|] | sv | | sv mv ev]; try reflexivity;
    try (now destruct sr); try (now destruct sv); contradiction.
Qed.

End BinaryArithmetic.

(** Binary64 arithmetic satisfies the laws of the reset: a spiking entry
    gets [v_reset] when the potential computed for it is finite, and
    not-a-number when it is not. *)
#[export] Instance float_ResetLaws : ResetLaws PrimFloat.float.
Proof.
  constructor; cbn [finite not_a_number negative_zero float_Finiteness].
  - intros v. destruct (sf_finite (FloatOps.Prim2SF v)); [left | right];
      [reflexivity | discriminate].
  - intros v r Hv Hr. apply FloatAxioms.Prim2SF_inj.
    change (FloatOps.Prim2SF
              (PrimFloat.add
                 (PrimFloat.mul (PrimFloat.sub PrimFloat.one PrimFloat.one) v)
                 (PrimFloat.mul PrimFloat.one r))
            = FloatOps.Prim2SF r).
    rewrite FloatAxioms.add_spec, !FloatAxioms.mul_spec.
    rewrite Prim2SF_one_minus_one, Prim2SF_one.
    apply sf_reset_of_spike;
      [apply FloatAxioms.Prim2SF_valid | assumption | assumption].
  - intros v r Hv.
    change (FloatOps.Prim2SF
              (PrimFloat.add
                 (PrimFloat.mul (PrimFloat.sub PrimFloat.one PrimFloat.one) v)
                 (PrimFloat.mul PrimFloat.one r))
            = SpecFloat.S754_nan).
    rewrite FloatAxioms.add_spec, !FloatAxioms.mul_spec.
    rewrite Prim2SF_one_minus_one, Prim2SF_one.
    apply sf_reset_of_overflow.
    destruct (sf_finite (FloatOps.Prim2SF v)); [now contradiction Hv |].
    reflexivity.
  - intros v r Hr Hv. apply FloatAxioms.Prim2SF_inj.
    change (FloatOps.Prim2SF
              (PrimFloat.add
                 (PrimFloat.mul (PrimFloat.sub PrimFloat.one PrimFloat.zero) v)
                 (PrimFloat.mul PrimFloat.zero r))
            = FloatOps.Prim2SF v).
    rewrite FloatAxioms.add_spec, !FloatAxioms.mul_spec.
    rewrite Prim2SF_one_minus_zero, Prim2SF_zero.
    apply sf_reset_of_silence;
      [apply FloatAxioms.Prim2SF_valid | assumption | assumption].
Qed.

(* ================================================================== *)
(** ** The reset *)

Section Reset.

Context {F : Type} {SF : Scalar F}.

Lemma heaviside_scalar_cases (x : F) :
  heaviside_scalar x = fone \/ heaviside_scalar x = fzero.
Proof. unfold heaviside_scalar. destruct (fleb fzero x); auto. Qed.

(** The threshold applied to a potential and the reset that follows it
    always return: the spikes have the layout of the potential. *)
Lemma lif_reset_of_spike (v_pre : tensor F) (p : LIFParameters.t F) :
  exists v_new,
    lif_reset (lif_spike v_pre p) v_pre p = Ok v_new /\
    t_shape v_new = t_shape v_pre /\
    t_device v_new = t_device v_pre /\
    t_data v_new
    = zip_with fadd
        (zip_with fmul
           (map (fun a => fsub fone a) (t_data (lif_spike v_pre p)))
           (t_data v_pre))
        (map (fun a => fmul a (LIFParameters.v_reset p))
           (t_data (lif_spike v_pre p))).
Proof.
  unfold lif_reset, tmul, tadd, rsub, muls.
  rewrite tzip_ok by reflexivity. simpl.
  rewrite tzip_ok by reflexivity. simpl.
  eexists. split; [reflexivity |]. simpl. auto.
Qed.

(** The reset entry by entry, in whatever arithmetic the engine has. *)
Lemma lif_reset_entry (v_pre v_new : tensor F) (p : LIFParameters.t F)
  (k : nat) (vk : F) :
  lif_reset (lif_spike v_pre p) v_pre p = Ok v_new ->
  entry v_pre k = Some vk ->
  let zk := heaviside_scalar (fsub vk (LIFParameters.v_th p)) in
  entry (lif_spike v_pre p) k = Some zk /\
  entry v_new k
  = Some (fadd (fmul (fsub fone zk) vk)
            (fmul zk (LIFParameters.v_reset p))).
Proof.
  intros Hreset Hv zk.
  destruct (lif_reset_of_spike v_pre p) as (v_new' & Hr & _ & _ & Hdata).
  rewrite Hr in Hreset. injection Hreset as <-.
  assert (Hz : entry (lif_spike v_pre p) k = Some zk).
  { unfold entry in *. simpl. now rewrite !nth_error_map, Hv. }
  split; [exact Hz |].
  unfold entry in *. rewrite Hdata.
  apply zip_with_nth_error.
  - apply zip_with_nth_error; [| exact Hv].
    now rewrite nth_error_map, Hz.
  - now rewrite nth_error_map, Hz.
Qed.

Context {FN : Finiteness F} {RL : ResetLaws F}.

(** C4.  In the state returned by one LIF step, and so by
    [LIFCell.forward], the spikes are the threshold applied to the
    potential computed before the reset, and the potential of every
    entry is [(1 - z) * v + z * v_reset] in the engine's arithmetic: for
    a spike of 1 this is [v_reset] when the computed potential is
    finite and not-a-number when it is not, and for a spike of 0 it is
    the computed potential when [v_reset] is finite (negative zeros
    apart). *)
Theorem LIFCell_forward_reset (self self' : LIFCell.t F) (input : tensor F)
  (state next : LIFState.t F) (out : tensor F) :
  LIFCell.forward input state self = (Ok (out, next), self') ->
  let p := LIFCell.p self in
  exists v_pre i_new : tensor F,
    lif_step_integrate input state
      (NNParameter.data (LIFCell.input_weights self))
      (NNParameter.data (LIFCell.recurrent_weights self))
      p (LIFCell.dt self) = Ok (v_pre, i_new) /\
    out = LIFState.z next /\
    LIFState.z next = lif_spike v_pre p /\
    LIFState.i next = i_new /\
    t_shape (LIFState.v next) = t_shape v_pre /\
    length (t_data (LIFState.v next)) = length (t_data v_pre) /\
    length (t_data (LIFState.z next)) = length (t_data v_pre) /\
    forall (k : nat) (vk : F),
      entry v_pre k = Some vk ->
      exists zk v_out : F,
        entry (LIFState.z next) k = Some zk /\
        entry (LIFState.v next) k = Some v_out /\
        zk = heaviside_scalar (fsub vk (LIFParameters.v_th p)) /\
        (zk = fone \/ zk = fzero) /\
        (zk = fone -> finite vk ->
         ~ negative_zero (LIFParameters.v_reset p) ->
         v_out = LIFParameters.v_reset p) /\
        (zk = fone -> ~ finite vk -> not_a_number v_out) /\
        (zk = fzero -> finite (LIFParameters.v_reset p) ->
         ~ negative_zero vk -> v_out = vk).
Proof.
  rewrite LIFCell_forward_eq. intros H p. injection H as Hstep _.
  fold p in Hstep.
  unfold lif_step in Hstep. unfold rbind at 1 in Hstep.
  destruct (lif_step_integrate input state _ _ _ _) as [[v_pre i_new] |];
    [| discriminate].
  unfold rbind in Hstep.
  destruct (lif_reset (lif_spike v_pre p) v_pre p) as [v_new |] eqn:Er;
    [| discriminate].
  injection Hstep as Hout Hnext. subst out next. simpl.
  exists v_pre, i_new.
  destruct (lif_reset_of_spike v_pre p) as (v_new' & Hr & Hs & _ & Hdata).
  rewrite Er in Hr. injection Hr as <-.
  do 4 (split; [reflexivity |]). split; [exact Hs |].
  assert (Hzlen : length (t_data (lif_spike v_pre p))
                  = length (t_data v_pre)).
  { unfold lif_spike, heaviside, subs. simpl. now rewrite !length_map. }
  split.
  { rewrite Hdata.
    rewrite zip_with_length;
      [rewrite zip_with_length |
       rewrite zip_with_length];
      rewrite ?length_map; congruence. }
  split; [exact Hzlen |].
  intros k vk Hk.
  destruct (lif_reset_entry v_pre v_new p k vk Er Hk) as [Hz Hv].
  set (zk := heaviside_scalar (fsub vk (LIFParameters.v_th p))) in *.
  exists zk, (fadd (fmul (fsub fone zk) vk)
                (fmul zk (LIFParameters.v_reset p))).
  split; [exact Hz |]. split; [exact Hv |]. split; [reflexivity |].
  split; [apply heaviside_scalar_cases |].
  split; [| split].
  - intros -> Hfin Hneg. now apply reset_of_spike.
  - intros -> Hinf. now apply reset_of_overflow.
  - intros -> Hfin Hneg. now apply reset_of_silence.
Qed.

End Reset.

Lemma LIFCell_forward_reset_witness :
  exists (out : tensor PrimFloat.float) (next : LIFState.t PrimFloat.float)
         (v_pre i_new : tensor PrimFloat.float),
    LIFCell.forward FloatSamples.input FloatSamples.state FloatSamples.cell
    = (Ok (out, next), FloatSamples.cell) /\
    lif_step_integrate FloatSamples.input FloatSamples.state
      (NNParameter.data (LIFCell.input_weights FloatSamples.cell))
      (NNParameter.data (LIFCell.recurrent_weights FloatSamples.cell))
      FloatSamples.parameters (LIFCell.dt FloatSamples.cell)
    = Ok (v_pre, i_new) /\
    out = LIFState.z next /\
    LIFState.z next = lif_spike v_pre FloatSamples.parameters /\
    LIFState.i next = i_new /\
    t_shape (LIFState.v next) = t_shape v_pre /\
    length (t_data (LIFState.v next)) = length (t_data v_pre) /\
    length (t_data (LIFState.z next)) = length (t_data v_pre) /\
    forall (k : nat) (vk : PrimFloat.float),
      entry v_pre k = Some vk ->
      exists zk v_out : PrimFloat.float,
        entry (LIFState.z next) k = Some zk /\
        entry (LIFState.v next) k = Some v_out /\
        zk = heaviside_scalar
               (fsub vk (LIFParameters.v_th FloatSamples.parameters)) /\
        (zk = fone \/ zk = fzero) /\
        (zk = fone -> finite vk ->
         ~ negative_zero (LIFParameters.v_reset FloatSamples.parameters) ->
         v_out = LIFParameters.v_reset FloatSamples.parameters) /\
        (zk = fone -> ~ finite vk -> not_a_number v_out) /\
        (zk = fzero ->
         finite (LIFParameters.v_reset FloatSamples.parameters) ->
         ~ negative_zero vk -> v_out = vk).
Proof.
  destruct (LIFCell.forward FloatSamples.input FloatSamples.state
              FloatSamples.cell)
    as [[[out next] | e] self'] eqn:E.
  - assert (Hself : self' = FloatSamples.cell)
      by (change self' with (snd (Ok (out, next), self')); rewrite <- E;
          apply LIFCell_forward_preserves).
    subst self'.
    destruct (LIFCell_forward_reset FloatSamples.cell FloatSamples.cell
                FloatSamples.input FloatSamples.state next out E)
      as (v_pre & i_new & H).
    exists out, next, v_pre, i_new. split; [reflexivity | exact H].
  - vm_compute in E. discriminate E.
Defined.

(** The sample step in binary64: the input of 100 takes the potential
    from 0 to about 1.9, over the threshold of 1; the neuron spikes and
    its potential is reset to [v_reset = 0]. *)
Example LIFCell_forward_reset_sample :
  match fst (LIFCell.forward FloatSamples.input FloatSamples.state
               FloatSamples.cell) with
  | Ok (out, next) => (t_data out, t_data (LIFState.v next))
  | Raise _ => ([], [])
  end
  = ([PrimFloat.one], [PrimFloat.zero]).
Proof. vm_compute. reflexivity. Qed.

(** The reset is not exact on every computed potential: an infinite
    input drives the potential of the sample neuron to [+inf]; the
    neuron spikes, and [(1 - 1) * inf + 1 * v_reset] is not-a-number
    in binary64, not [v_reset]. *)
Lemma LIFCell_forward_reset_overflow :
  exists (out : tensor PrimFloat.float) (next : LIFState.t PrimFloat.float)
         (v_pre i_new : tensor PrimFloat.float),
    LIFCell.forward FloatSamples.infinite_input FloatSamples.state
      FloatSamples.cell
    = (Ok (out, next), FloatSamples.cell) /\
    lif_step_integrate FloatSamples.infinite_input FloatSamples.state
      (NNParameter.data (LIFCell.input_weights FloatSamples.cell))
      (NNParameter.data (LIFCell.recurrent_weights FloatSamples.cell))
      FloatSamples.parameters (LIFCell.dt FloatSamples.cell)
    = Ok (v_pre, i_new) /\
    entry v_pre 0 = Some PrimFloat.infinity /\
    entry (LIFState.z next) 0 = Some fone /\
    entry (LIFState.v next) 0 = Some PrimFloat.nan /\
    PrimFloat.nan <> LIFParameters.v_reset (LIFCell.p FloatSamples.cell).
Proof.
  do 4 eexists.
  split; [vm_compute; reflexivity |].
  split; [vm_compute; reflexivity |].
  do 3 (split; [reflexivity |]).
  intros H. apply (f_equal PrimFloat.is_nan) in H. vm_compute in H.
  discriminate H.
Defined.

(* ================================================================== *)
(** ** Rows of a buffer *)

Section Rows.

Context {A : Type}.

Lemma concat_uniform_length (k : nat) (rows : list (list A)) :
  Forall (fun row => length row = k) rows ->
  length (concat rows) = length rows * k.
Proof.
  induction 1 as [| row rows Hrow _ IH]; simpl; [reflexivity |].
  rewrite length_app, IH, Hrow. reflexivity.
Qed.

(** The [t]-th block of a concatenation of rows of one length. *)
Lemma concat_uniform_row (k : nat) (rows : list (list A)) (t : nat)
  (row : list A) (tail : list A) :
  Forall (fun row => length row = k) rows ->
  nth_error rows t = Some row ->
  firstn k (skipn (t * k) (concat rows ++ tail)) = row.
Proof.
  intros Hrows. revert t.
  induction Hrows as [| r rows Hr _ IH]; intros t Ht.
  - destruct t; discriminate.
  - destruct t as [| t]; simpl in *.
    + injection Ht as ->. rewrite <- app_assoc.
      rewrite firstn_app, Hr, Nat.sub_diag, firstn_O, app_nil_r.
      rewrite <- Hr. apply firstn_all.
    + rewrite <- app_assoc, Nat.add_comm, <- skipn_skipn.
      rewrite skipn_app, (@skipn_all2 _ k r) by lia.
      rewrite Hr, Nat.sub_diag. simpl. now apply IH.
Qed.

Lemma skipn_repeat_zeros (a : A) (m n : nat) :
  skipn m (repeat a n) = repeat a (n - m).
Proof.
  revert n. induction m as [| m IH]; intros n.
  - now rewrite Nat.sub_0_r.
  - destruct n as [| n]; simpl; [reflexivity | apply IH].
Qed.

End Rows.

Section Buffers.

Context {F : Type} {SF : Scalar F}.

Lemma zeros_buffer_holds (N : nat) (S : list nat) (dev : torch_device)
  (dt : dtype) :
  buffer_holds N S (zeros (F := F) (N :: S) dev dt) [].
Proof.
  unfold buffer_holds, zeros; simpl. rewrite Nat.sub_0_r. auto.
Qed.

(** Writing row [ts] of a buffer whose first [ts] rows are filled. *)
Lemma setitem3_next_row (N : nat) (S : list nat) (buf v : tensor F)
  (filled : list (list F)) :
  buffer_holds N S buf filled ->
  length filled < N ->
  2 <= length S ->
  t_shape v = S ->
  length (t_data v) = numel S ->
  exists buf',
    setitem3 buf (length filled) v = Ok buf' /\
    t_device buf' = t_device buf /\
    t_dtype buf' = t_dtype buf /\
    buffer_holds N S buf' (filled ++ [t_data v]).
Proof.
  intros (Hshape & Hdata & Hrows) Hts Hrank Hv Hlen.
  unfold setitem3. rewrite Hshape.
  destruct S as [| a [| b S']]; simpl in Hrank; try lia.
  apply Nat.ltb_lt in Hts as Hts'. rewrite Hts', Hv, shape_eqb_refl.
  eexists. split; [reflexivity |]. simpl. split; [reflexivity |].
  split; [reflexivity |].
  set (k := numel (a :: b :: S')) in *.
  pose proof (concat_uniform_length k filled Hrows) as Hcat.
  unfold buffer_holds; simpl. split; [reflexivity |]. split.
  - rewrite Hdata. change (a * (b * numel S')) with k.
    rewrite firstn_app, <- Hcat, firstn_all, Nat.sub_diag, firstn_O, app_nil_r.
    rewrite skipn_app, skipn_all2 by (rewrite Hcat; lia).
    rewrite skipn_repeat_zeros, Hcat. simpl.
    rewrite concat_app. simpl. rewrite app_nil_r, <- app_assoc.
    rewrite length_app. simpl.
    do 3 f_equal. nia.
  - apply Forall_app. split; [assumption |]. now constructor.
Qed.

(** Reading row [t] of a buffer that has been filled. *)
Lemma select0_filled_row (N : nat) (S : list nat) (buf : tensor F)
  (filled : list (list F)) (t : nat) (row : list F) :
  buffer_holds N S buf filled ->
  length filled = N ->
  nth_error filled t = Some row ->
  select0 buf t = Ok (mkTensor S (t_device buf) (t_dtype buf) row).
Proof.
  intros (Hshape & Hdata & Hrows) Hlen Hrow.
  assert (Ht : t < N).
  { rewrite <- Hlen. apply nth_error_Some. congruence. }
  unfold select0. rewrite Hshape.
  apply Nat.ltb_lt in Ht. rewrite Ht, Hdata.
  now rewrite (concat_uniform_row _ _ _ _ _ Hrows Hrow).
Qed.

End Buffers.

(* ================================================================== *)
(** ** The encoder *)

Section Encoder.

Context {F : Type} {SF : Scalar F}.

(** On a potential of the shape and device of the input the encoder step
    returns, and its results have that shape and device again. *)
Lemma lif_current_encoder_ok (x v : tensor F) (p : LIFParameters.t F)
  (dt : F) :
  t_shape v = t_shape x ->
  t_device v = t_device x ->
  exists z1 v1,
    lif_current_encoder x v p dt = Ok (z1, v1) /\
    t_shape z1 = t_shape x /\ t_shape v1 = t_shape x /\
    t_device z1 = t_device x /\ t_device v1 = t_device x /\
    (length (t_data v) = length (t_data x) ->
     length (t_data z1) = length (t_data x) /\
     length (t_data v1) = length (t_data x)).
Proof.
  intros Hs Hd.
  unfold lif_current_encoder, lif_potential_update, lif_reset, lif_spike,
    heaviside, subs, rsub, smul, muls, tadd, tmul.
  rewrite (tzip_ok fadd (tmap _ v) x) by (simpl; assumption). simpl.
  rewrite tzip_ok by (simpl; congruence). simpl.
  rewrite tzip_ok by (simpl; congruence). simpl.
  rewrite tzip_ok by (simpl; congruence). simpl.
  do 2 eexists. split; [reflexivity |]. simpl.
  repeat (split; [congruence |]).
  intros Hlen.
  assert (Hpot :
    length
      (zip_with fadd (t_data v)
         (map (fmul (fmul dt (LIFParameters.tau_mem_inv p)))
            (zip_with fadd
               (map (fun a => fsub (LIFParameters.v_leak p) a) (t_data v))
               (t_data x))))
    = length (t_data x)).
  { rewrite zip_with_length; [assumption |].
    rewrite length_map, zip_with_length; rewrite length_map; congruence. }
  split.
  - now rewrite !length_map.
  - rewrite zip_with_length.
    + rewrite zip_with_length; rewrite !length_map; [assumption | reflexivity].
    + rewrite zip_with_length; rewrite !length_map; reflexivity.
Qed.

Variable x : tensor F.
Variable self : LIFConstantCurrentEncoder.t F.

Hypothesis x_rank : 2 <= length (t_shape x).
Hypothesis x_wf : wf x.

(** The loop of [forward] from time step [length fv] on: it runs the
    recurrence of [encoder_steps] and appends one row per step to each
    buffer. *)
Lemma encoder_loop (N : nat) :
  forall (n : nat) (fv fz : list (list F)) (z v voltages spikes : tensor F),
    length fv + n = N ->
    length fz = length fv ->
    buffer_holds N (t_shape x) voltages fv ->
    buffer_holds N (t_shape x) spikes fz ->
    t_shape v = t_shape x ->
    t_device v = t_device x ->
    length (t_data v) = length (t_data x) ->
    exists steps z' v' voltages' spikes',
      encoder_steps x v (LIFConstantCurrentEncoder.p self)
        (LIFConstantCurrentEncoder.dt self) n = Ok steps /\
      length steps = n /\
      for_in (seq (length fv) n)
        (fun ts '(z, v, voltages, spikes) =>
           p <- attr LIFConstantCurrentEncoder.p ;;
           dt <- attr LIFConstantCurrentEncoder.dt ;;
           '(z, v) <- engine (lif_current_encoder x v p dt) ;;
           voltages <- engine (setitem3 voltages ts v) ;;
           spikes <- engine (setitem3 spikes ts z) ;;
           ret (z, v, voltages, spikes))
        (z, v, voltages, spikes) self
      = (Ok (z', v', voltages', spikes'), self) /\
      buffer_holds N (t_shape x) voltages'
        (fv ++ map (fun s => t_data (snd s)) steps) /\
      buffer_holds N (t_shape x) spikes'
        (fz ++ map (fun s => t_data (fst s)) steps) /\
      t_device voltages' = t_device voltages /\
      t_dtype voltages' = t_dtype voltages /\
      t_device spikes' = t_device spikes /\
      t_dtype spikes' = t_dtype spikes.
Proof.
  induction n as [| n IH];
    intros fv fz z v voltages spikes HN Hfz Hbv Hbz Hvs Hvd Hvl.
  - exists [], z, v, voltages, spikes. simpl. rewrite !app_nil_r.
    refine (conj eq_refl (conj eq_refl (conj eq_refl (conj Hbv (conj Hbz _))))).
    auto.
  - destruct (lif_current_encoder_ok x v (LIFConstantCurrentEncoder.p self)
                (LIFConstantCurrentEncoder.dt self) Hvs Hvd)
      as (z1 & v1 & Hstep & Hz1s & Hv1s & Hz1d & Hv1d & Hlens).
    destruct (Hlens Hvl) as [Hz1l Hv1l].
    destruct (setitem3_next_row N (t_shape x) voltages v1 fv Hbv)
      as (voltages1 & Hset_v & Hdev_v & Hdt_v & Hbv1);
      [lia | assumption | assumption | now rewrite Hv1l |].
    destruct (setitem3_next_row N (t_shape x) spikes z1 fz Hbz)
      as (spikes1 & Hset_z & Hdev_z & Hdt_z & Hbz1);
      [lia | assumption | assumption | now rewrite Hz1l |].
    rewrite Hfz in Hset_z.
    destruct (IH (fv ++ [t_data v1]) (fz ++ [t_data z1]) z1 v1 voltages1
                spikes1)
      as (steps & z' & v' & voltages' & spikes' & Hsteps & Hlen & Hloop
          & Hbv' & Hbz' & Hdv & Hdtv & Hdz & Hdtz);
      try assumption.
    + rewrite length_app. simpl. lia.
    + rewrite !length_app. simpl. lia.
    + exists ((z1, v1) :: steps), z', v', voltages', spikes'.
      simpl. rewrite Hstep. simpl. rewrite Hsteps. simpl.
      split; [reflexivity |]. split; [now rewrite Hlen |].
      split.
      * unfold bind at 1 2 3. unfold attr at 1 2. unfold engine at 1.
        rewrite Hstep.
        unfold bind at 1 2. unfold engine at 1 2. rewrite Hset_v, Hset_z.
        unfold ret at 1.
        rewrite length_app in Hloop. simpl in Hloop.
        rewrite Nat.add_1_r in Hloop. exact Hloop.
      * rewrite <- !app_assoc in Hbv', Hbz'. simpl in Hbv', Hbz'.
        refine (conj Hbv' (conj Hbz' _)).
        repeat split; congruence.
Qed.

End Encoder.

Section EncoderForward.

Context {F : Type} {SF : Scalar F}.

Lemma zeros_unpacked_ok (sizes : list nat) (dev : torch_device) (dt : dtype) :
  sizes <> [] ->
  zeros_unpacked (F := F) sizes dev dt = Ok (zeros sizes dev dt).
Proof. intros H. destruct sizes; [contradiction | reflexivity]. Qed.

(** [forward] on an input of at least one dimension, up to its loop. *)
Lemma encoder_forward_loop (self : LIFConstantCurrentEncoder.t F)
  (x : tensor F) :
  t_shape x <> [] ->
  let N := LIFConstantCurrentEncoder.seq_length self in
  let dev := LIFConstantCurrentEncoder.device self in
  LIFConstantCurrentEncoder.forward x self
  = match
      for_in (seq 0 N)
        (fun ts '(z, v, voltages, spikes) =>
           p <- attr LIFConstantCurrentEncoder.p ;;
           dt <- attr LIFConstantCurrentEncoder.dt ;;
           '(z, v) <- engine (lif_current_encoder x v p dt) ;;
           voltages <- engine (setitem3 voltages ts v) ;;
           spikes <- engine (setitem3 spikes ts z) ;;
           ret (z, v, voltages, spikes))
        (zeros (t_shape x) dev torch_float, zeros (t_shape x) dev torch_float,
         zeros (N :: t_shape x) dev torch_float,
         zeros (N :: t_shape x) dev torch_float) self
    with
    | (Ok (_, _, voltages, spikes), self') => (Ok (voltages, spikes), self')
    | (Raise e, self') => (Raise e, self')
    end.
Proof.
  intros Hshape N dev.
  unfold LIFConstantCurrentEncoder.forward, for_range.
  unfold bind at 1. unfold attr at 1.
  unfold bind at 1. unfold engine at 1.
  rewrite (zeros_unpacked_ok _ _ _ Hshape).
  unfold bind at 1. unfold engine at 1.
  unfold bind at 1. unfold attr at 1.
  unfold bind at 1. fold N dev.
  match goal with
  | |- match ?loop with _ => _ end = _ =>
      destruct loop as [[[[[z v] voltages] spikes] | e] self'];
      reflexivity
  end.
Qed.


(** C5.  The buffers are allocated for any shape of [x], but the write
    [voltages[ts, :, :] = v] takes three indices: on an input of one
    dimension the first time step raises [IndexError], on an input of no
    dimension the allocation of the potential already raises [TypeError],
    and in neither case is a tensor of shape [N, *S] returned. *)
Theorem LIFConstantCurrentEncoder_forward_low_rank
  (self : LIFConstantCurrentEncoder.t F) (x : tensor F) :
  length (t_shape x) < 2 ->
  t_device x = LIFConstantCurrentEncoder.device self ->
  1 <= LIFConstantCurrentEncoder.seq_length self ->
  LIFConstantCurrentEncoder.forward x self
  = (Raise match t_shape x with
           | [] => TypeError
           | _ :: _ => IndexError
           end, self).
Proof.
  intros Hrank Hdev HN.
  destruct (t_shape x) as [| a rest] eqn:Hshape.
  - unfold LIFConstantCurrentEncoder.forward, bind, attr, engine.
    rewrite Hshape. reflexivity.
  - rewrite encoder_forward_loop by (rewrite Hshape; discriminate).
    destruct (LIFConstantCurrentEncoder.seq_length self) as [| n]; [lia |].
    simpl seq. simpl for_in.
    destruct (lif_current_encoder_ok x
                (zeros (t_shape x) (LIFConstantCurrentEncoder.device self)
                   torch_float)
                (LIFConstantCurrentEncoder.p self)
                (LIFConstantCurrentEncoder.dt self))
      as (z1 & v1 & Hstep & _); [reflexivity | now rewrite Hdev |].
    unfold bind, attr, engine. rewrite Hstep.
    unfold setitem3. simpl t_shape. rewrite Hshape.
    destruct rest as [| b S']; simpl in Hrank; [reflexivity | lia].
Qed.

End EncoderForward.


Lemma LIFConstantCurrentEncoder_forward_low_rank_witness :
  t_shape sample_vector = [4] /\
  LIFConstantCurrentEncoder.forward sample_vector sample_encoder
  = (Raise IndexError, sample_encoder).
Proof.
  split; [reflexivity |].
  apply (LIFConstantCurrentEncoder_forward_low_rank sample_encoder
           sample_vector).
  - simpl. lia.
  - reflexivity.
  - simpl. lia.
Defined.

(** C6.  On the one-dimensional [sample_vector] the recurrence the
    encoder is to record is well defined, three steps from the zero
    potential under the constant input, but [forward] raises at the first
    write into its buffer and returns no trace. *)
Theorem LIFConstantCurrentEncoder_forward_vector_no_trace :
  (exists steps,
     encoder_steps sample_vector (zeros [4] cpu torch_float)
       sample_parameters (qc 1 1000) 3 = Ok steps /\
     length steps = 3) /\
  LIFConstantCurrentEncoder.forward sample_vector sample_encoder
  = (Raise IndexError, sample_encoder).
Proof.
  split.
  - destruct (encoder_steps sample_vector (zeros [4] cpu torch_float)
                sample_parameters (qc 1 1000) 3) as [steps | e] eqn:E.
    + exists steps. split; [reflexivity |].
      apply (f_equal (fun r => match r with
                               | Ok l => length l
                               | Raise _ => 0
                               end)) in E.
      rewrite <- E. vm_compute. reflexivity.
    + vm_compute in E. discriminate E.
  - vm_compute. reflexivity.
Qed.

(* ================================================================== *)
(** ** Stacking keeps the order *)

Section Stack.

Context {F : Type} {SF : Scalar F}.

(** Row [t] of a stack is the [t]-th tensor that was stacked. *)
Lemma stack_select0 (outs : list (tensor F)) (stacked out : tensor F)
  (t : nat) :
  stack outs = Ok stacked ->
  Forall wf outs ->
  nth_error outs t = Some out ->
  t_shape stacked = length outs :: t_shape out /\
  select0 stacked t
  = Ok (mkTensor (t_shape out) (t_device stacked) (t_dtype stacked)
          (t_data out)).
Proof.
  intros Hstack Hwf Hout. unfold stack in Hstack.
  destruct outs as [| x rest]; [discriminate |].
  destruct (forallb (same_layout x) rest) eqn:Hall; [| discriminate].
  injection Hstack as <-.
  assert (Hshapes : Forall (fun y => t_shape y = t_shape x) (x :: rest)).
  { constructor; [reflexivity |].
    apply Forall_forall. intros y Hy.
    rewrite forallb_forall in Hall. specialize (Hall y Hy).
    unfold same_layout in Hall. apply andb_prop in Hall as [Hs _].
    symmetry. now apply shape_eqb_eq. }
  assert (Hshape : t_shape out = t_shape x).
  { rewrite Forall_forall in Hshapes. apply Hshapes.
    eapply nth_error_In. exact Hout. }
  assert (Hrows : Forall (fun row => length row = numel (t_shape x))
                    (map t_data (x :: rest))).
  { apply Forall_map. rewrite Forall_forall in *. intros y Hy.
    rewrite <- (Hshapes y Hy). apply Hwf. exact Hy. }
  cbn [t_shape t_device t_dtype]. rewrite Hshape. split; [reflexivity |].
  unfold select0. cbn [t_shape t_device t_dtype t_data].
  assert (Ht : t < length (x :: rest)).
  { apply nth_error_Some. congruence. }
  apply Nat.ltb_lt in Ht. cbn [length] in Ht |- *. rewrite Ht.
  change (t_data x ++ concat (map t_data rest))
    with (concat (map t_data (x :: rest))).
  rewrite <- (app_nil_r (concat (map t_data (x :: rest)))).
  rewrite (concat_uniform_row _ _ t (t_data out) [] Hrows);
    [reflexivity |].
  now rewrite nth_error_map, Hout.
Qed.

End Stack.

(** In the reals, dividing by [c] is scaling by [1 / c]. *)
Lemma divs_scales (x : tensor R) (c a : R) (k : nat) :
  entry x k = Some a -> entry (divs x c) k = Some (a * (1 / c))%R.
Proof.
  intros H. rewrite (divs_entry x c k a H). simpl. f_equal.
  unfold Rdiv. now rewrite Rmult_1_l.
Qed.

(* ================================================================== *)
(** ** The modules on the sample objects *)

(** The layer on the sample sequence of two steps: the stacked spikes
    have shape [2, 1, 2], the first neuron spikes at the second step. *)
Example LIFLayer_forward_sample :
  match fst (LIFLayer.forward sample_sequence sample_state
               (LIFLayer.mk sample_cell)) with
  | Ok (stacked, final) =>
      (t_shape stacked, map this (t_data stacked),
       map this (t_data (LIFState.v final)))
  | Raise _ => ([], [], [])
  end
  = ([2; 1; 2], [0%Q; 0%Q; 1%Q; 0%Q], [(-1)%Q; (3051 # 50000)%Q]).
Proof. vm_compute. reflexivity. Qed.

(** The encoder on the sample matrix: three rows of potentials and of
    spikes. *)
Example LIFConstantCurrentEncoder_forward_sample :
  match fst (LIFConstantCurrentEncoder.forward sample_matrix sample_encoder)
  with
  | Ok (voltages, spikes) =>
      (t_shape voltages, map this (t_data voltages), map this (t_data spikes))
  | Raise _ => ([], [], [])
  end
  = ([3; 2; 2],
     [(-1)%Q; 0%Q; (1 # 2)%Q; (3 # 10)%Q;
      (3 # 10)%Q; 0%Q; (19 # 20)%Q; (57 # 100)%Q;
      (-1)%Q; 0%Q; (-1)%Q; (813 # 1000)%Q],
     [1%Q; 0%Q; 0%Q; 0%Q;
      0%Q; 0%Q; 0%Q; 0%Q;
      1%Q; 0%Q; 1%Q; 0%Q]).
Proof. vm_compute. reflexivity. Qed.

(** With [seq_length = 0] the loop does not run and the three-index
    write is not reached, whatever the shape of the input. *)
Example LIFConstantCurrentEncoder_forward_no_step :
  fst (LIFConstantCurrentEncoder.forward sample_vector
         (LIFConstantCurrentEncoder.mk 0 sample_parameters cpu (qc 1 1000)))
  = Ok (zeros [0; 4] cpu torch_float, zeros [0; 4] cpu torch_float).
Proof. reflexivity. Qed.

(** The buffers live on the encoder's device: an input on another device
    cannot be combined with the potential. *)
Example LIFConstantCurrentEncoder_forward_other_device :
  LIFConstantCurrentEncoder.forward sample_matrix_cuda sample_encoder
  = (Raise RuntimeError, sample_encoder).
Proof. vm_compute. reflexivity. Qed.

(* ================================================================== *)
(** ** The layer, step by step *)

Section LayerSteps.

Context {F : Type} {SF : Scalar F}.
Context {C St : Type} {cc : Callable F C St}.

(** [LIFLayer.forward] in terms of the steps taken by hand. *)
Lemma LIFLayer_forward_run (self : LIFLayer.t C) (input : tensor F)
  (state : St) (T : nat) (rest : list nat) :
  t_shape input = T :: rest ->
  LIFLayer.forward input state self
  = match steps_by_hand input 0 T state (LIFLayer.cell self) with
    | (Ok (outs, final), c) =>
        (stacked <~ stack outs ;; Ok (stacked, final), LIFLayer.mk c)
    | (Raise e, c) => (Raise e, LIFLayer.mk c)
    end.
Proof.
  intros Hshape.
  destruct (unbind0_getitem input T rest Hshape) as (inputs & Hunbind & Hlen & Hget).
  unfold LIFLayer.forward, for_range.
  unfold bind at 1. unfold engine at 1. rewrite Hunbind, Hlen.
  unfold bind at 1.
  rewrite (layer_loop_by_hand input inputs T Hget T 0 [] state self eq_refl).
  destruct (steps_by_hand input 0 T state (LIFLayer.cell self))
    as [[[outs final] | e] c]; [| reflexivity].
  simpl. unfold bind, engine, ret.
  destruct (stack outs); reflexivity.
Qed.

(** [n + m] steps are [n] steps followed by [m] steps from the state and
    the cell the first [n] left. *)
Lemma steps_by_hand_app (input : tensor F) (n m : nat) :
  forall (t : nat) (state : St) (c : C),
    steps_by_hand input t (n + m) state c
    = match steps_by_hand input t n state c with
      | (Ok (outs1, s1), c1) =>
          match steps_by_hand input (t + n) m s1 c1 with
          | (Ok (outs2, s2), c2) => (Ok (outs1 ++ outs2, s2), c2)
          | (Raise e, c2) => (Raise e, c2)
          end
      | (Raise e, c1) => (Raise e, c1)
      end.
Proof.
  induction n as [| n IH]; intros t state c.
  - simpl. unfold ret. rewrite Nat.add_0_r.
    destruct (steps_by_hand input t m state c) as [[[outs2 s2] | e] c2];
      reflexivity.
  - simpl. unfold bind, engine, ret in *.
    destruct (select0 input t) as [x | e]; [| reflexivity].
    destruct (call x state c) as [[[out s1] | e] c1]; [| reflexivity].
    rewrite IH.
    destruct (steps_by_hand input (S t) n s1 c1) as [[[outs1 s2] | e] c2];
      [| reflexivity].
    replace (t + S n) with (S t + n) by lia.
    destruct (steps_by_hand input (S t + n) m s2 c2)
      as [[[outs2 s3] | e] c3]; reflexivity.
Qed.

(** The steps read the input through its slices only. *)
Lemma steps_by_hand_ext (input input' : tensor F) (n : nat) :
  forall (t t' : nat) (state : St) (c : C),
    (forall j, j < n -> select0 input (t + j) = select0 input' (t' + j)) ->
    steps_by_hand input t n state c = steps_by_hand input' t' n state c.
Proof.
  induction n as [| n IH]; intros t t' state c Hsel; [reflexivity |].
  simpl. unfold bind, engine, ret in *.
  pose proof (Hsel 0 ltac:(lia)) as H0. rewrite !Nat.add_0_r in H0.
  rewrite H0.
  destruct (select0 input' t') as [x | e]; [| reflexivity].
  destruct (call x state c) as [[[out s1] | e] c1]; [| reflexivity].
  rewrite (IH (S t) (S t') s1 c1); [reflexivity |].
  intros j Hj. specialize (Hsel (S j) ltac:(lia)).
  now rewrite !Nat.add_succ_r in Hsel.
Qed.

(** X1.  When [LIFLayer.forward] returns, the cell was called once per
    time step with the state threaded, every output had one shape and
    one device, the stacked tensor has that shape under a first
    dimension of length [T], and its row [t] holds the entries of the
    output of step [t]. *)
Theorem LIFLayer_forward_returned (self self' : LIFLayer.t C)
  (input stacked : tensor F) (state final : St) (T : nat) (rest : list nat) :
  t_shape input = T :: rest ->
  LIFLayer.forward input state self = (Ok (stacked, final), self') ->
  exists outs : list (tensor F),
    steps_by_hand input 0 T state (LIFLayer.cell self)
    = (Ok (outs, final), LIFLayer.cell self') /\
    length outs = T /\ 1 <= T /\
    forall (t : nat) (out : tensor F),
      nth_error outs t = Some out ->
      t_shape stacked = T :: t_shape out /\
      t_device stacked = t_device out /\
      (Forall wf outs ->
       select0 stacked t
       = Ok (mkTensor (t_shape out) (t_device stacked) (t_dtype stacked)
               (t_data out))).
Proof.
  intros Hshape Hrun.
  rewrite (LIFLayer_forward_run self input state T rest Hshape) in Hrun.
  destruct (steps_by_hand input 0 T state (LIFLayer.cell self))
    as [[[outs final'] | e] c] eqn:Hsteps; [| discriminate].
  destruct (stack outs) as [o |] eqn:Hstack; [| discriminate].
  simpl in Hrun. injection Hrun as <- <- <-.
  pose proof (steps_by_hand_length _ _ _ _ _ _ _ _ Hsteps) as Hlen.
  exists outs. split; [reflexivity |]. split; [exact Hlen |]. split.
  - destruct outs; [discriminate | simpl in Hlen; lia].
  - intros t out Hout.
    assert (Hlayout : t_shape o = T :: t_shape out /\ t_device o = t_device out).
    { unfold stack in Hstack. destruct outs as [| x xs]; [discriminate |].
      destruct (forallb (same_layout x) xs) eqn:Hall; [| discriminate].
      injection Hstack as <-. simpl in *.
      destruct t as [| t]; simpl in Hout.
      - injection Hout as ->. rewrite Hlen. auto.
      - apply nth_error_In in Hout. rewrite forallb_forall in Hall.
        specialize (Hall out Hout). unfold same_layout in Hall.
        apply andb_prop in Hall as [Hs Hd].
        apply shape_eqb_eq in Hs. apply String.eqb_eq in Hd.
        rewrite Hlen, Hs, Hd. auto. }
    destruct Hlayout as [Hs Hd]. split; [exact Hs |]. split; [exact Hd |].
    intros Hwf. now destruct (stack_select0 outs o out t Hstack Hwf Hout).
Qed.

(** X2.  A call of the cell that raises ends the layer's loop: if the
    first [k] steps return and step [k] raises, [LIFLayer.forward] raises
    the same exception, and the cell is left as that call left it, not
    called on the later time steps. *)
Theorem LIFLayer_forward_raises (self : LIFLayer.t C) (input x : tensor F)
  (state sk : St) (T k : nat) (rest : list nat) (outs : list (tensor F))
  (ck c' : C) (e : exn) :
  t_shape input = T :: rest ->
  k < T ->
  steps_by_hand input 0 k state (LIFLayer.cell self) = (Ok (outs, sk), ck) ->
  select0 input k = Ok x ->
  call x sk ck = (Raise e, c') ->
  LIFLayer.forward input state self = (Raise e, LIFLayer.mk c').
Proof.
  intros Hshape Hk Hsteps Hsel Hcall.
  rewrite (LIFLayer_forward_run self input state T rest Hshape).
  replace T with (k + S (T - S k)) by lia.
  rewrite steps_by_hand_app, Hsteps. simpl.
  unfold bind, engine. rewrite Hsel, Hcall. reflexivity.
Qed.

(** X3.  On a sequence of one time step the layer is one call of the
    cell, with the output put under a first dimension of length 1. *)
Theorem LIFLayer_forward_one_step (self : LIFLayer.t C) (input : tensor F)
  (state : St) (rest : list nat) :
  t_shape input = 1 :: rest ->
  exists x : tensor F,
    select0 input 0 = Ok x /\
    LIFLayer.forward input state self
    = match call x state (LIFLayer.cell self) with
      | (Ok (out, final), c) => (Ok (unsqueeze0 out, final), LIFLayer.mk c)
      | (Raise e, c) => (Raise e, LIFLayer.mk c)
      end.
Proof.
  intros Hshape.
  rewrite (LIFLayer_forward_run self input state 1 rest Hshape).
  simpl. unfold bind, engine, ret.
  unfold select0. rewrite Hshape. simpl.
  eexists. split; [reflexivity |].
  match goal with |- context [call ?x state (LIFLayer.cell self)] =>
    destruct (call x state (LIFLayer.cell self)) as [[[out final] | e] c]
  end; [| reflexivity].
  simpl. unfold unsqueeze0. now rewrite app_nil_r.
Qed.

End LayerSteps.

(* ================================================================== *)
(** ** A sequence given in two parts *)

Lemma promote_idem (d : dtype) : promote d d = d.
Proof. now destruct d. Qed.

Lemma promote_assoc (a b c : dtype) :
  promote a (promote b c) = promote (promote a b) c.
Proof. destruct a, b, c; reflexivity. Qed.

Lemma fold_promote_cons (l : list dtype) (a b : dtype) :
  fold_left promote (b :: l) a = promote a (fold_left promote l b).
Proof.
  revert a b. induction l as [| c l IH]; intros a b; [reflexivity |].
  simpl in *. rewrite (IH (promote a b) c), (IH b c).
  now rewrite promote_assoc.
Qed.

Section Parts.

Context {F : Type} {SF : Scalar F}.

Lemma cat0_inv (a b whole : tensor F) (T1 : nat) (rest : list nat) :
  cat0 a b = Ok whole ->
  t_shape a = T1 :: rest ->
  exists T2,
    t_shape b = T2 :: rest /\
    t_device b = t_device a /\
    whole = mkTensor ((T1 + T2) :: rest) (t_device a)
              (promote (t_dtype a) (t_dtype b)) (t_data a ++ t_data b).
Proof.
  unfold cat0. intros H Ha. rewrite Ha in H.
  destruct (t_shape b) as [| T2 rb]; [discriminate |].
  destruct (shape_eqb rest rb && String.eqb (t_device a) (t_device b))
    eqn:E; [| discriminate].
  apply andb_prop in E as [Hs Hd].
  apply shape_eqb_eq in Hs. apply String.eqb_eq in Hd. subst rb.
  injection H as <-. exists T2. auto.
Qed.

(** The first rows of a concatenation are the rows of its first part. *)
Lemma select0_cat0_left (a b whole : tensor F) (T1 : nat) (rest : list nat)
  (t : nat) :
  cat0 a b = Ok whole ->
  t_shape a = T1 :: rest ->
  wf a ->
  t_dtype a = t_dtype b ->
  t < T1 ->
  select0 whole t = select0 a t.
Proof.
  intros Hcat Ha Hwf Hdt Ht.
  destruct (cat0_inv a b whole T1 rest Hcat Ha) as (T2 & Hb & Hd & ->).
  unfold select0; simpl. rewrite Ha.
  assert (H1 : (t <? T1 + T2) = true) by (apply Nat.ltb_lt; lia).
  assert (H2 : (t <? T1) = true) by (apply Nat.ltb_lt; lia).
  rewrite H1, H2, <- Hdt, promote_idem.
  unfold wf in Hwf. rewrite Ha in Hwf. simpl in Hwf.
  do 2 f_equal.
  rewrite skipn_app, firstn_app.
  replace (t * numel rest - length (t_data a)) with 0 by nia.
  rewrite length_skipn.
  replace (numel rest - (length (t_data a) - t * numel rest)) with 0 by nia.
  simpl. now rewrite app_nil_r.
Qed.

(** The later rows are the rows of its second part. *)
Lemma select0_cat0_right (a b whole : tensor F) (T1 T2 : nat)
  (rest : list nat) (t : nat) :
  cat0 a b = Ok whole ->
  t_shape a = T1 :: rest ->
  t_shape b = T2 :: rest ->
  wf a ->
  t_dtype a = t_dtype b ->
  t < T2 ->
  select0 whole (T1 + t) = select0 b t.
Proof.
  intros Hcat Ha Hb Hwf Hdt Ht.
  destruct (cat0_inv a b whole T1 rest Hcat Ha) as (T2' & Hb' & Hd & ->).
  rewrite Hb in Hb'. injection Hb' as <-.
  unfold select0; simpl. rewrite Hb.
  assert (H1 : (T1 + t <? T1 + T2) = true) by (apply Nat.ltb_lt; lia).
  assert (H2 : (t <? T2) = true) by (apply Nat.ltb_lt; lia).
  rewrite H1, H2, Hdt, promote_idem, Hd.
  unfold wf in Hwf. rewrite Ha in Hwf. simpl in Hwf.
  do 2 f_equal.
  rewrite skipn_app, skipn_all2 by nia.
  replace ((T1 + t) * numel rest - length (t_data a)) with (t * numel rest)
    by nia.
  reflexivity.
Qed.

(** Stacking two runs of outputs at once or one after the other. *)
Lemma stack_app (outs1 outs2 : list (tensor F)) (o1 o2 stacked : tensor F) :
  stack outs1 = Ok o1 ->
  stack outs2 = Ok o2 ->
  cat0 o1 o2 = Ok stacked ->
  stack (outs1 ++ outs2) = Ok stacked.
Proof.
  unfold stack. intros H1 H2 Hcat.
  destruct outs1 as [| x xs]; [discriminate |].
  destruct (forallb (same_layout x) xs) eqn:A1; [| discriminate].
  destruct outs2 as [| y ys]; [discriminate |].
  destruct (forallb (same_layout y) ys) eqn:A2; [| discriminate].
  injection H1 as <-. injection H2 as <-.
  unfold cat0 in Hcat. simpl in Hcat.
  destruct (shape_eqb (t_shape x) (t_shape y)
            && String.eqb (t_device x) (t_device y)) eqn:E; [| discriminate].
  injection Hcat as <-.
  assert (Hall : forallb (same_layout x) (xs ++ y :: ys) = true).
  { rewrite forallb_app, A1. simpl.
    unfold same_layout at 1. rewrite E. simpl.
    apply forallb_forall. intros w Hw.
    rewrite forallb_forall in A2. specialize (A2 w Hw).
    apply andb_prop in E as [Es Ed].
    apply shape_eqb_eq in Es. apply String.eqb_eq in Ed.
    unfold same_layout in *. now rewrite Es, Ed. }
  simpl. rewrite Hall. do 2 f_equal.
  - f_equal. rewrite length_app. simpl. lia.
  - rewrite map_app, fold_left_app. simpl map.
    now rewrite fold_promote_cons.
  - rewrite map_app, concat_app. simpl. now rewrite <- app_assoc.
Qed.

Context {C St : Type} {cc : Callable F C St}.

(** X4.  A sequence may be given to the layer in two parts: running the
    layer on the first part, then on the second part from the state the
    first run returned, and concatenating the two outputs, gives what
    one run on the whole sequence gives, with the same final state and
    the same cell. *)
Theorem LIFLayer_forward_in_two_parts (self self1 self2 : LIFLayer.t C)
  (a b whole o1 o2 stacked : tensor F) (s0 s1 s2 : St) (T1 : nat)
  (rest : list nat) :
  t_shape a = T1 :: rest ->
  wf a ->
  t_dtype a = t_dtype b ->
  cat0 a b = Ok whole ->
  LIFLayer.forward a s0 self = (Ok (o1, s1), self1) ->
  LIFLayer.forward b s1 self1 = (Ok (o2, s2), self2) ->
  cat0 o1 o2 = Ok stacked ->
  LIFLayer.forward whole s0 self = (Ok (stacked, s2), self2).
Proof.
  intros Ha Hwf Hdt Hcat Hrun1 Hrun2 Hout.
  destruct (cat0_inv a b whole T1 rest Hcat Ha) as (T2 & Hb & Hd & Hwhole).
  assert (Hw : t_shape whole = (T1 + T2) :: rest) by now subst whole.
  rewrite (LIFLayer_forward_run self a s0 T1 rest Ha) in Hrun1.
  destruct (steps_by_hand a 0 T1 s0 (LIFLayer.cell self))
    as [[[outs1 s1'] | e] c1] eqn:Hsteps1; [| discriminate].
  destruct (stack outs1) as [o1' |] eqn:Hstack1; [| discriminate].
  simpl in Hrun1. injection Hrun1 as -> -> <-.
  rewrite (LIFLayer_forward_run (LIFLayer.mk c1) b s1 T2 rest Hb) in Hrun2.
  simpl in Hrun2.
  destruct (steps_by_hand b 0 T2 s1 c1)
    as [[[outs2 s2'] | e] c2] eqn:Hsteps2; [| discriminate].
  destruct (stack outs2) as [o2' |] eqn:Hstack2; [| discriminate].
  simpl in Hrun2. injection Hrun2 as -> -> <-.
  rewrite (LIFLayer_forward_run self whole s0 (T1 + T2) rest Hw).
  rewrite steps_by_hand_app.
  rewrite (steps_by_hand_ext whole a T1 0 0 s0 (LIFLayer.cell self)).
  - rewrite Hsteps1.
    rewrite (steps_by_hand_ext whole b T2 (0 + T1) 0 s1 c1).
    + rewrite Hsteps2.
      now rewrite (stack_app outs1 outs2 o1 o2 stacked Hstack1 Hstack2 Hout).
    + intros j Hj. simpl.
      now apply (select0_cat0_right a b whole T1 T2 rest).
  - intros j Hj. simpl.
    now apply (select0_cat0_left a b whole T1 rest).
Qed.

End Parts.

(* ================================================================== *)
(** ** More on the encoder's traces *)

Section EncoderTraces.

Context {F : Type} {SF : Scalar F}.

(** What a run of [forward] on an input it accepts leaves in the two
    buffers. *)
Lemma encoder_forward_run (self : LIFConstantCurrentEncoder.t F)
  (x : tensor F) :
  2 <= length (t_shape x) ->
  t_device x = LIFConstantCurrentEncoder.device self ->
  wf x ->
  let N := LIFConstantCurrentEncoder.seq_length self in
  let dev := LIFConstantCurrentEncoder.device self in
  exists voltages spikes steps,
    LIFConstantCurrentEncoder.forward x self = (Ok (voltages, spikes), self) /\
    encoder_steps x (zeros (t_shape x) dev torch_float)
      (LIFConstantCurrentEncoder.p self) (LIFConstantCurrentEncoder.dt self) N
    = Ok steps /\
    length steps = N /\
    buffer_holds N (t_shape x) voltages (map (fun s => t_data (snd s)) steps) /\
    buffer_holds N (t_shape x) spikes (map (fun s => t_data (fst s)) steps) /\
    t_device voltages = dev /\ t_dtype voltages = torch_float /\
    t_device spikes = dev /\ t_dtype spikes = torch_float.
Proof.
  intros Hrank Hdev Hwf N dev.
  destruct (encoder_loop x self Hrank Hwf N N [] []
              (zeros (t_shape x) dev torch_float)
              (zeros (t_shape x) dev torch_float)
              (zeros (N :: t_shape x) dev torch_float)
              (zeros (N :: t_shape x) dev torch_float))
    as (steps & z' & v' & voltages & spikes & Hsteps & Hlen & Hloop
        & Hbv & Hbz & Hdv & Hdtv & Hdz & Hdtz).
  - reflexivity.
  - reflexivity.
  - apply zeros_buffer_holds.
  - apply zeros_buffer_holds.
  - reflexivity.
  - simpl. now rewrite Hdev.
  - simpl. rewrite repeat_length. symmetry. exact Hwf.
  - exists voltages, spikes, steps.
    split; [| now repeat (split; [assumption |])].
    rewrite encoder_forward_loop
      by (intros E; rewrite E in Hrank; simpl in Hrank; lia).
    simpl in Hloop. fold N dev. rewrite Hloop.
    reflexivity.
Qed.

Lemma buffer_full_data (N : nat) (S : list nat) (buf : tensor F)
  (filled : list (list F)) :
  buffer_holds N S buf filled ->
  length filled = N ->
  t_data buf = concat filled /\ length (t_data buf) = N * numel S.
Proof.
  intros (_ & Hdata & Hrows) Hlen.
  rewrite Hdata, Hlen, Nat.sub_diag. simpl. rewrite app_nil_r.
  split; [reflexivity |].
  now rewrite (concat_uniform_length (numel S) filled Hrows), Hlen.
Qed.

(** X5.  The traces live where the encoder says, not where the input
    does: both are on the encoder's device, carry the default dtype of
    [torch.zeros] whatever the dtype of [x], and hold
    [seq_length * numel(x)] entries. *)
Theorem LIFConstantCurrentEncoder_forward_layout
  (self : LIFConstantCurrentEncoder.t F) (x : tensor F) :
  2 <= length (t_shape x) ->
  t_device x = LIFConstantCurrentEncoder.device self ->
  wf x ->
  exists voltages spikes,
    LIFConstantCurrentEncoder.forward x self = (Ok (voltages, spikes), self) /\
    t_device voltages = LIFConstantCurrentEncoder.device self /\
    t_device spikes = LIFConstantCurrentEncoder.device self /\
    t_dtype voltages = torch_float /\
    t_dtype spikes = torch_float /\
    wf voltages /\ wf spikes /\
    length (t_data voltages)
    = LIFConstantCurrentEncoder.seq_length self * length (t_data x) /\
    length (t_data spikes)
    = LIFConstantCurrentEncoder.seq_length self * length (t_data x).
Proof.
  intros Hrank Hdev Hwf.
  destruct (encoder_forward_run self x Hrank Hdev Hwf)
    as (voltages & spikes & steps & Hrun & _ & Hlen & Hbv & Hbz
        & Hdv & Hdtv & Hdz & Hdtz).
  exists voltages, spikes.
  destruct (buffer_full_data _ _ _ _ Hbv) as [_ Hlv];
    [now rewrite length_map |].
  destruct (buffer_full_data _ _ _ _ Hbz) as [_ Hlz];
    [now rewrite length_map |].
  unfold wf in *. destruct Hbv as (Hsv & _). destruct Hbz as (Hsz & _).
  rewrite Hsv, Hsz, Hwf. simpl.
  repeat (split; [assumption |]). exact Hlz.
Qed.

Lemma encoder_steps_prefix (x : tensor F) (p : LIFParameters.t F) (dt : F)
  (n m : nat) :
  forall (v : tensor F) (short long : list (tensor F * tensor F)),
    encoder_steps x v p dt n = Ok short ->
    encoder_steps x v p dt (n + m) = Ok long ->
    forall t, t < n -> nth_error long t = nth_error short t.
Proof.
  induction n as [| n IH]; intros v short long Hs Hl t Ht; [lia |].
  simpl in Hs, Hl. unfold rbind in Hs, Hl.
  destruct (lif_current_encoder x v p dt) as [[z1 v1] |]; [| discriminate].
  destruct (encoder_steps x v1 p dt n) as [short' |] eqn:Es; [| discriminate].
  destruct (encoder_steps x v1 p dt (n + m)) as [long' |] eqn:El;
    [| discriminate].
  injection Hs as <-. injection Hl as <-.
  destruct t as [| t]; [reflexivity |]. simpl.
  apply (IH v1 short' long' Es El). lia.
Qed.

(** X6.  A longer run does not change what a shorter one recorded: two
    encoders that differ in [seq_length] only return traces that agree
    on every row of the shorter one. *)
Theorem LIFConstantCurrentEncoder_forward_prefix
  (short long : LIFConstantCurrentEncoder.t F) (x : tensor F) :
  LIFConstantCurrentEncoder.p short = LIFConstantCurrentEncoder.p long ->
  LIFConstantCurrentEncoder.dt short = LIFConstantCurrentEncoder.dt long ->
  LIFConstantCurrentEncoder.device short
  = LIFConstantCurrentEncoder.device long ->
  LIFConstantCurrentEncoder.seq_length short
  <= LIFConstantCurrentEncoder.seq_length long ->
  2 <= length (t_shape x) ->
  t_device x = LIFConstantCurrentEncoder.device short ->
  wf x ->
  exists voltages spikes voltages' spikes',
    LIFConstantCurrentEncoder.forward x short
    = (Ok (voltages, spikes), short) /\
    LIFConstantCurrentEncoder.forward x long
    = (Ok (voltages', spikes'), long) /\
    forall t, t < LIFConstantCurrentEncoder.seq_length short ->
      (exists row, select0 voltages t = Ok row /\ select0 voltages' t = Ok row)
      /\
      (exists row, select0 spikes t = Ok row /\ select0 spikes' t = Ok row).
Proof.
  intros Hp Hdt Hdev HN Hrank Hx Hwf.
  destruct (encoder_forward_run short x Hrank Hx Hwf)
    as (v1 & z1 & steps1 & Hrun1 & Hsteps1 & Hlen1 & Hbv1 & Hbz1
        & Hdv1 & Hdtv1 & Hdz1 & Hdtz1).
  assert (Hx' : t_device x = LIFConstantCurrentEncoder.device long)
    by congruence.
  destruct (encoder_forward_run long x Hrank Hx' Hwf)
    as (v2 & z2 & steps2 & Hrun2 & Hsteps2 & Hlen2 & Hbv2 & Hbz2
        & Hdv2 & Hdtv2 & Hdz2 & Hdtz2).
  exists v1, z1, v2, z2. split; [exact Hrun1 |]. split; [exact Hrun2 |].
  intros t Ht.
  rewrite <- Hp, <- Hdt, <- Hdev in Hsteps2.
  replace (LIFConstantCurrentEncoder.seq_length long)
    with (LIFConstantCurrentEncoder.seq_length short
          + (LIFConstantCurrentEncoder.seq_length long
             - LIFConstantCurrentEncoder.seq_length short))
    in Hsteps2 by lia.
  pose proof (encoder_steps_prefix _ _ _ _ _ _ _ _ Hsteps1 Hsteps2 t Ht)
    as Hsame.
  destruct (nth_error steps1 t) as [[z_t v_t] |] eqn:E1.
  2: { apply nth_error_None in E1. lia. }
  split.
  - exists (mkTensor (t_shape x) (LIFConstantCurrentEncoder.device short)
              torch_float (t_data v_t)).
    split.
    + rewrite <- Hdv1, <- Hdtv1.
      apply select0_filled_row with
        (N := LIFConstantCurrentEncoder.seq_length short)
        (filled := map (fun s => t_data (snd s)) steps1);
        [exact Hbv1 | now rewrite length_map | now rewrite nth_error_map, E1].
    + rewrite Hdev, <- Hdv2, <- Hdtv2.
      apply select0_filled_row with
        (N := LIFConstantCurrentEncoder.seq_length long)
        (filled := map (fun s => t_data (snd s)) steps2);
        [exact Hbv2 | now rewrite length_map
        | now rewrite nth_error_map, Hsame].
  - exists (mkTensor (t_shape x) (LIFConstantCurrentEncoder.device short)
              torch_float (t_data z_t)).
    split.
    + rewrite <- Hdz1, <- Hdtz1.
      apply select0_filled_row with
        (N := LIFConstantCurrentEncoder.seq_length short)
        (filled := map (fun s => t_data (fst s)) steps1);
        [exact Hbz1 | now rewrite length_map | now rewrite nth_error_map, E1].
    + rewrite Hdev, <- Hdz2, <- Hdtz2.
      apply select0_filled_row with
        (N := LIFConstantCurrentEncoder.seq_length long)
        (filled := map (fun s => t_data (fst s)) steps2);
        [exact Hbz2 | now rewrite length_map
        | now rewrite nth_error_map, Hsame].
Qed.

End EncoderTraces.

Section EncoderSpikes.

Context {F : Type} {SF : Scalar F} {FN : Finiteness F} {RL : ResetLaws F}.





End EncoderSpikes.

(* ================================================================== *)
(** ** Layouts through a step *)

Section Layouts.

Context {F : Type} {SF : Scalar F}.

Lemma tzip_layout (f : F -> F -> F) (shape : list nat) (dev : torch_device)
  (a b : tensor F) :
  has_layout shape dev a -> has_layout shape dev b ->
  exists c, tzip f a b = Ok c /\ has_layout shape dev c.
Proof.
  intros [Has Had] [Hbs Hbd].
  rewrite tzip_ok by congruence.
  eexists. split; [reflexivity |]. split; simpl; assumption.
Qed.

Lemma tmap_layout (f : F -> F) (shape : list nat) (dev : torch_device)
  (a : tensor F) :
  has_layout shape dev a -> has_layout shape dev (tmap f a).
Proof. intros [Hs Hd]. split; simpl; assumption. Qed.

Lemma lif_current_update_layout (shape : list nat) (dev : torch_device)
  (i input_current : tensor F) (p : LIFParameters.t F) (dt : F) :
  has_layout shape dev i -> has_layout shape dev input_current ->
  exists i_new,
    lif_current_update i input_current p dt = Ok i_new /\
    has_layout shape dev i_new.
Proof.
  intros Hi Hc. unfold lif_current_update, tadd, tneg, smul.
  destruct (tzip_layout fadd shape dev (tmap fopp i) input_current)
    as (d & -> & Hd); [now apply tmap_layout | assumption |].
  simpl. apply tzip_layout; [assumption | now apply tmap_layout].
Qed.

Lemma lif_potential_update_layout (shape : list nat) (dev : torch_device)
  (v i_new : tensor F) (p : LIFParameters.t F) (dt : F) :
  has_layout shape dev v -> has_layout shape dev i_new ->
  exists v_new,
    lif_potential_update v i_new p dt = Ok v_new /\
    has_layout shape dev v_new.
Proof.
  intros Hv Hi. unfold lif_potential_update, tadd, rsub, smul.
  destruct (tzip_layout fadd shape dev
              (tmap (fun x => fsub (LIFParameters.v_leak p) x) v) i_new)
    as (d & -> & Hd); [now apply tmap_layout | assumption |].
  simpl. apply tzip_layout; [assumption | now apply tmap_layout].
Qed.

Lemma lif_spike_layout (shape : list nat) (dev : torch_device)
  (v_new : tensor F) (p : LIFParameters.t F) :
  has_layout shape dev v_new -> has_layout shape dev (lif_spike v_new p).
Proof.
  intros H. unfold lif_spike, heaviside, subs. now do 2 apply tmap_layout.
Qed.

Lemma lif_reset_layout (shape : list nat) (dev : torch_device)
  (z_new v_new : tensor F) (p : LIFParameters.t F) :
  has_layout shape dev z_new -> has_layout shape dev v_new ->
  exists v_out,
    lif_reset z_new v_new p = Ok v_out /\ has_layout shape dev v_out.
Proof.
  intros Hz Hv. unfold lif_reset, tadd, tmul, rsub, muls.
  destruct (tzip_layout fmul shape dev
              (tmap (fun x => fsub fone x) z_new) v_new)
    as (keep & -> & Hk); [now apply tmap_layout | assumption |].
  simpl. apply tzip_layout; [assumption | now apply tmap_layout].
Qed.

(** One feed-forward step keeps the layout of the state. *)
Lemma lif_feed_forward_step_layout (shape : list nat) (dev : torch_device)
  (input : tensor F) (state : LIFFeedForwardState.t F)
  (p : LIFParameters.t F) (dt : F) :
  has_layout shape dev input ->
  ff_state_layout shape dev state ->
  exists out next,
    lif_feed_forward_step input state p dt = Ok (out, next) /\
    has_layout shape dev out /\
    ff_state_layout shape dev next.
Proof.
  intros Hx (Hv & Hi). unfold lif_feed_forward_step.
  destruct (lif_current_update_layout shape dev
              (LIFFeedForwardState.i state) input p dt Hi Hx)
    as (i_new & -> & Hin).
  simpl.
  destruct (lif_potential_update_layout shape dev
              (LIFFeedForwardState.v state) i_new p dt Hv Hin)
    as (v_new & -> & Hvn).
  simpl.
  pose proof (lif_spike_layout shape dev v_new p Hvn) as Hs.
  destruct (lif_reset_layout shape dev (lif_spike v_new p) v_new p Hs Hvn)
    as (v_out & -> & Hvo).
  simpl. do 2 eexists. split; [reflexivity |]. simpl.
  split; [exact Hs |]. split; assumption.
Qed.

(** X9.  The feed-forward cell takes an input and a state of one shape
    on one device to an output and a next state of that shape on that
    device, whatever the shape is. *)
Theorem LIFFeedForwardCell_forward_layout (self : LIFFeedForwardCell.t F)
  (shape : list nat) (dev : torch_device) (input : tensor F)
  (state : LIFFeedForwardState.t F) :
  has_layout shape dev input ->
  ff_state_layout shape dev state ->
  exists out next,
    LIFFeedForwardCell.forward input state self = (Ok (out, next), self) /\
    has_layout shape dev out /\
    ff_state_layout shape dev next.
Proof.
  intros Hx Hs.
  destruct (lif_feed_forward_step_layout shape dev input state
              (LIFFeedForwardCell.p self) (LIFFeedForwardCell.dt self) Hx Hs)
    as (out & next & Hstep & Hout).
  exists out, next. split; [| exact Hout].
  unfold LIFFeedForwardCell.forward, bind, attr, engine. now rewrite Hstep.
Qed.

End Layouts.

(* ================================================================== *)
(** ** When the layer returns *)

Section LayerTotal.

Context {F : Type} {SF : Scalar F}.

Lemma select0_layout (input : tensor F) (T : nat) (rest : list nat)
  (t : nat) :
  t_shape input = T :: rest -> t < T ->
  exists x, select0 input t = Ok x /\ has_layout rest (t_device input) x.
Proof.
  intros Hshape Ht. unfold select0. rewrite Hshape.
  apply Nat.ltb_lt in Ht. rewrite Ht.
  eexists. split; [reflexivity |]. split; reflexivity.
Qed.

Lemma stack_uniform (shape : list nat) (dev : torch_device)
  (outs : list (tensor F)) :
  outs <> [] ->
  Forall (has_layout shape dev) outs ->
  exists o,
    stack outs = Ok o /\ has_layout (length outs :: shape) dev o.
Proof.
  intros Hne Hall. destruct outs as [| x xs]; [contradiction |].
  inversion Hall as [| ? ? [Hxs Hxd] Hrest]; subst.
  unfold stack.
  assert (H : forallb (same_layout x) xs = true).
  { apply forallb_forall. intros y Hy.
    rewrite Forall_forall in Hrest. destruct (Hrest y Hy) as [Hys Hyd].
    unfold same_layout. rewrite Hys, Hyd, shape_eqb_refl, String.eqb_refl.
    reflexivity. }
  rewrite H. eexists. split; [reflexivity |]. split; reflexivity.
Qed.

Context {C St : Type} {cc : Callable F C St}.

Variable input : tensor F.
Variable T : nat.
Variable rest : list nat.
Variable Inv : St -> C -> Prop.
Variable shape : list nat.
Variable dev : torch_device.

Hypothesis input_shape : t_shape input = T :: rest.
Hypothesis step_returns :
  forall x s c,
    has_layout rest (t_device input) x -> Inv s c ->
    exists out s' c',
      call x s c = (Ok (out, s'), c') /\ Inv s' c' /\
      has_layout shape dev out.

(** If the cell returns on every slice, keeping an invariant of the
    state and the cell, the steps by hand all return. *)
Lemma steps_by_hand_total :
  forall (n t : nat) (s : St) (c : C),
    t + n = T -> Inv s c ->
    exists outs s' c',
      steps_by_hand input t n s c = (Ok (outs, s'), c') /\
      length outs = n /\
      Forall (has_layout shape dev) outs /\
      Inv s' c'.
Proof.
  induction n as [| n IH]; intros t s c Ht Hinv.
  - exists [], s, c. simpl. unfold ret. auto.
  - destruct (select0_layout input T rest t input_shape) as (x & Hsel & Hx);
      [lia |].
    destruct (step_returns x s c Hx Hinv) as (out & s1 & c1 & Hcall & Hinv1 & Hout).
    destruct (IH (S t) s1 c1) as (outs & s' & c' & Hsteps & Hlen & Hall & Hinv');
      [lia | assumption |].
    exists (out :: outs), s', c'.
    simpl. unfold bind, engine, ret. rewrite Hsel, Hcall, Hsteps.
    split; [reflexivity |]. split; [now rewrite Hlen |].
    split; [now constructor | assumption].
Qed.

(** Then the layer returns, with the outputs stacked under [T]. *)
Lemma layer_total (self : LIFLayer.t C) (s0 : St) :
  1 <= T ->
  Inv s0 (LIFLayer.cell self) ->
  exists stacked final self',
    LIFLayer.forward input s0 self = (Ok (stacked, final), self') /\
    has_layout (T :: shape) dev stacked /\
    Inv final (LIFLayer.cell self').
Proof.
  intros HT Hinv.
  destruct (steps_by_hand_total T 0 s0 (LIFLayer.cell self))
    as (outs & final & c' & Hsteps & Hlen & Hall & Hinv');
    [reflexivity | assumption |].
  destruct (stack_uniform shape dev outs) as (o & Hstack & Ho);
    [destruct outs; [simpl in Hlen; lia | discriminate] | assumption |].
  exists o, final, (LIFLayer.mk c').
  rewrite (LIFLayer_forward_run self input s0 T rest input_shape).
  rewrite Hsteps, Hstack. simpl.
  split; [reflexivity |]. split; [now rewrite <- Hlen | assumption].
Qed.

End LayerTotal.

Section LayerOverCells.

Context {F : Type} {SF : Scalar F}.

(** X11.  A layer over a feed-forward cell returns on every sequence of
    at least one step whose slices have the shape and device of the
    state: the spikes have shape [T :: shape] and the final state the
    shape of the initial one. *)
Theorem LIFLayer_over_LIFFeedForwardCell_returns
  (cell : LIFFeedForwardCell.t F) (T : nat) (shape : list nat)
  (dev : torch_device) (input : tensor F) (state : LIFFeedForwardState.t F) :
  1 <= T ->
  has_layout (T :: shape) dev input ->
  ff_state_layout shape dev state ->
  exists stacked final,
    LIFLayer.forward input state (LIFLayer.mk cell)
    = (Ok (stacked, final), LIFLayer.mk cell) /\
    has_layout (T :: shape) dev stacked /\
    ff_state_layout shape dev final.
Proof.
  intros HT [Hxs Hxd] Hs.
  destruct (layer_total input T shape
              (fun s c => ff_state_layout shape dev s /\ c = cell)
              shape dev Hxs) with (self := LIFLayer.mk cell) (s0 := state)
    as (stacked & final & self' & Hrun & Hst & Hfin & Hcell).
  - intros x s c Hx [Hsl ->]. rewrite Hxd in Hx.
    destruct (lif_feed_forward_step_layout shape dev x s
                (LIFFeedForwardCell.p cell) (LIFFeedForwardCell.dt cell)
                Hx Hsl)
      as (out & next & Hstep & Hout & Hnext).
    exists out, next, cell. simpl.
    unfold LIFFeedForwardCell.forward, bind, attr, engine.
    rewrite Hstep. auto.
  - exact HT.
  - split; [exact Hs | reflexivity].
  - exists stacked, final. destruct self' as [c]. simpl in Hcell. subst c.
    auto.
Qed.

End LayerOverCells.

(* ================================================================== *)
(** ** Shape, device and dtype through the recurrent cell *)

Section Typed.

Context {F : Type} {SF : Scalar F}.

Lemma dtype_eqb_refl (d : dtype) : dtype_eqb d d = true.
Proof. unfold dtype_eqb. apply Nat.eqb_refl. Qed.

Lemma tzip_typed (f : F -> F -> F) (shape : list nat) (dev : torch_device)
  (dt : dtype) (a b : tensor F) :
  typed_layout shape dev dt a -> typed_layout shape dev dt b ->
  exists c, tzip f a b = Ok c /\ typed_layout shape dev dt c.
Proof.
  intros [[Has Had] Hat] [[Hbs Hbd] Hbt]. unfold has_dtype in *.
  rewrite tzip_ok by congruence.
  eexists. split; [reflexivity |]. repeat split; simpl; try assumption.
  unfold has_dtype. simpl. rewrite Hat, Hbt. apply promote_idem.
Qed.

Lemma tmap_typed (f : F -> F) (shape : list nat) (dev : torch_device)
  (dt : dtype) (a : tensor F) :
  typed_layout shape dev dt a -> typed_layout shape dev dt (tmap f a).
Proof. intros [[Hs Hd] Ht]. repeat split; simpl; assumption. Qed.

(** The matrix product wants one dtype of its two operands. *)
Lemma linear_typed (b n h : nat) (dev : torch_device) (dt : dtype)
  (x w : tensor F) :
  typed_layout [b; n] dev dt x -> typed_layout [h; n] dev dt w ->
  exists y, linear x w = Ok y /\ typed_layout [b; h] dev dt y.
Proof.
  intros [[Hxs Hxd] Hxt] [[Hws Hwd] Hwt]. unfold has_dtype in *.
  unfold linear. rewrite Hws, Hxs. simpl.
  rewrite Nat.eqb_refl, Hxd, Hwd, String.eqb_refl, Hxt, Hwt, dtype_eqb_refl.
  simpl. eexists. split; [reflexivity |]. repeat split.
Qed.

(** On operands of different dtypes it raises. *)
Lemma linear_dtype_mismatch (x w : tensor F) :
  dtype_eqb (t_dtype x) (t_dtype w) = false ->
  linear x w = Raise RuntimeError.
Proof.
  intros H. unfold linear.
  destruct (t_shape w) as [| h [| n [| ? ?]]]; try reflexivity.
  destruct (rev (t_shape x)) as [| n' lead]; [reflexivity |].
  rewrite H, andb_false_r. reflexivity.
Qed.

Lemma lif_current_update_typed (shape : list nat) (dev : torch_device)
  (dty : dtype) (i input_current : tensor F) (p : LIFParameters.t F)
  (dt : F) :
  typed_layout shape dev dty i -> typed_layout shape dev dty input_current ->
  exists i_new,
    lif_current_update i input_current p dt = Ok i_new /\
    typed_layout shape dev dty i_new.
Proof.
  intros Hi Hc. unfold lif_current_update, tadd, tneg, smul.
  destruct (tzip_typed fadd shape dev dty (tmap fopp i) input_current)
    as (d & -> & Hd); [now apply tmap_typed | assumption |].
  simpl. apply tzip_typed; [assumption | now apply tmap_typed].
Qed.

Lemma lif_potential_update_typed (shape : list nat) (dev : torch_device)
  (dty : dtype) (v i_new : tensor F) (p : LIFParameters.t F) (dt : F) :
  typed_layout shape dev dty v -> typed_layout shape dev dty i_new ->
  exists v_new,
    lif_potential_update v i_new p dt = Ok v_new /\
    typed_layout shape dev dty v_new.
Proof.
  intros Hv Hi. unfold lif_potential_update, tadd, rsub, smul.
  destruct (tzip_typed fadd shape dev dty
              (tmap (fun x => fsub (LIFParameters.v_leak p) x) v) i_new)
    as (d & -> & Hd); [now apply tmap_typed | assumption |].
  simpl. apply tzip_typed; [assumption | now apply tmap_typed].
Qed.

Lemma lif_spike_typed (shape : list nat) (dev : torch_device) (dty : dtype)
  (v_new : tensor F) (p : LIFParameters.t F) :
  typed_layout shape dev dty v_new ->
  typed_layout shape dev dty (lif_spike v_new p).
Proof.
  intros H. unfold lif_spike, heaviside, subs. now do 2 apply tmap_typed.
Qed.

Lemma lif_reset_typed (shape : list nat) (dev : torch_device) (dty : dtype)
  (z_new v_new : tensor F) (p : LIFParameters.t F) :
  typed_layout shape dev dty z_new -> typed_layout shape dev dty v_new ->
  exists v_out,
    lif_reset z_new v_new p = Ok v_out /\ typed_layout shape dev dty v_out.
Proof.
  intros Hz Hv. unfold lif_reset, tadd, tmul, rsub, muls.
  destruct (tzip_typed fmul shape dev dty
              (tmap (fun x => fsub fone x) z_new) v_new)
    as (keep & -> & Hk); [now apply tmap_typed | assumption |].
  simpl. apply tzip_typed; [assumption | now apply tmap_typed].
Qed.

Lemma typed_state_parts (shape : list nat) (dev : torch_device)
  (dty : dtype) (s : LIFState.t F) :
  typed_state shape dev dty s <->
  typed_layout shape dev dty (LIFState.z s) /\
  typed_layout shape dev dty (LIFState.v s) /\
  typed_layout shape dev dty (LIFState.i s).
Proof.
  unfold typed_state, state_layout, state_dtype, typed_layout. tauto.
Qed.

(** One recurrent step keeps the shape, the device and the dtype of the
    state. *)
Lemma lif_step_typed (b n h : nat) (dev : torch_device) (dty : dtype)
  (input w_in w_rec : tensor F) (state : LIFState.t F)
  (p : LIFParameters.t F) (dt : F) :
  typed_layout [b; n] dev dty input ->
  typed_layout [h; n] dev dty w_in ->
  typed_layout [h; h] dev dty w_rec ->
  typed_state [b; h] dev dty state ->
  exists out next,
    lif_step input state w_in w_rec p dt = Ok (out, next) /\
    out = LIFState.z next /\
    typed_layout [b; h] dev dty out /\
    typed_state [b; h] dev dty next.
Proof.
  intros Hx Hwi Hwr Hs.
  apply typed_state_parts in Hs. destruct Hs as (Hz & Hv & Hi).
  unfold lif_step, lif_step_integrate.
  destruct (linear_typed b n h dev dty input w_in Hx Hwi) as (a1 & -> & Ha1).
  destruct (linear_typed b h h dev dty (LIFState.z state) w_rec Hz Hwr)
    as (a2 & -> & Ha2).
  simpl. unfold tadd at 1.
  destruct (tzip_typed fadd [b; h] dev dty a1 a2 Ha1 Ha2) as (c & -> & Hc).
  simpl.
  destruct (lif_current_update_typed [b; h] dev dty (LIFState.i state) c p
              dt Hi Hc) as (i_new & -> & Hin).
  simpl.
  destruct (lif_potential_update_typed [b; h] dev dty (LIFState.v state)
              i_new p dt Hv Hin) as (v_new & -> & Hvn).
  simpl.
  pose proof (lif_spike_typed [b; h] dev dty v_new p Hvn) as Hsp.
  destruct (lif_reset_typed [b; h] dev dty (lif_spike v_new p) v_new p
              Hsp Hvn) as (v_out & -> & Hvo).
  simpl. do 2 eexists. split; [reflexivity |]. simpl.
  split; [reflexivity |]. split; [exact Hsp |].
  apply typed_state_parts. simpl. auto.
Qed.

(** X8.  A recurrent cell whose weights have the shapes
    [hidden, input] and [hidden, hidden] takes an input of shape
    [batch, input] and a state of shape [batch, hidden], all of the
    dtype and on the device of the weights, to an output and a next
    state of shape [batch, hidden], of that dtype and on that device:
    the returned state can be passed to the next call. *)
Theorem LIFCell_forward_layout (self : LIFCell.t F) (b n h : nat)
  (dev : torch_device) (dty : dtype) (input : tensor F)
  (state : LIFState.t F) :
  typed_layout [h; n] dev dty
    (NNParameter.data (LIFCell.input_weights self)) ->
  typed_layout [h; h] dev dty
    (NNParameter.data (LIFCell.recurrent_weights self)) ->
  typed_layout [b; n] dev dty input ->
  typed_state [b; h] dev dty state ->
  exists out next,
    LIFCell.forward input state self = (Ok (out, next), self) /\
    out = LIFState.z next /\
    typed_layout [b; h] dev dty out /\
    typed_state [b; h] dev dty next.
Proof.
  intros Hwi Hwr Hx Hs. rewrite LIFCell_forward_eq.
  destruct (lif_step_typed b n h dev dty input _ _ state (LIFCell.p self)
              (LIFCell.dt self) Hx Hwi Hwr Hs)
    as (out & next & -> & Hout).
  now exists out, next.
Qed.

Lemma select0_typed (input : tensor F) (T : nat) (rest : list nat)
  (t : nat) :
  t_shape input = T :: rest -> t < T ->
  exists x,
    select0 input t = Ok x /\
    typed_layout rest (t_device input) (t_dtype input) x.
Proof.
  intros Hshape Ht. unfold select0. rewrite Hshape.
  apply Nat.ltb_lt in Ht. rewrite Ht.
  eexists. split; [reflexivity |]. repeat split.
Qed.

Lemma fold_promote_same (d : dtype) (l : list dtype) :
  Forall (fun a => a = d) l -> fold_left promote l d = d.
Proof.
  induction 1 as [| a l -> _ IH]; [reflexivity |].
  simpl. now rewrite promote_idem.
Qed.

Lemma stack_typed (shape : list nat) (dev : torch_device) (dty : dtype)
  (outs : list (tensor F)) :
  outs <> [] ->
  Forall (typed_layout shape dev dty) outs ->
  exists o,
    stack outs = Ok o /\ typed_layout (length outs :: shape) dev dty o.
Proof.
  intros Hne Hall. destruct outs as [| x xs]; [contradiction |].
  inversion Hall as [| ? ? [[Hxs Hxd] Hxt] Hrest]; subst.
  unfold stack.
  assert (H : forallb (same_layout x) xs = true).
  { apply forallb_forall. intros y Hy.
    rewrite Forall_forall in Hrest.
    destruct (Hrest y Hy) as [[Hys Hyd] _].
    unfold same_layout. rewrite Hys, Hyd, shape_eqb_refl, String.eqb_refl.
    reflexivity. }
  rewrite H. eexists. split; [reflexivity |]. repeat split.
  unfold has_dtype in *. simpl. rewrite Hxt. apply fold_promote_same.
  apply Forall_map. rewrite Forall_forall in *. intros y Hy.
  now destruct (Hrest y Hy) as [_ Hyt].
Qed.

(** The steps of a layer over a recurrent cell that fits its input. *)
Lemma steps_over_LIFCell (cell : LIFCell.t F) (T b n h : nat)
  (dev : torch_device) (dty : dtype) (input : tensor F) :
  typed_layout [h; n] dev dty
    (NNParameter.data (LIFCell.input_weights cell)) ->
  typed_layout [h; h] dev dty
    (NNParameter.data (LIFCell.recurrent_weights cell)) ->
  typed_layout [T; b; n] dev dty input ->
  forall (k t : nat) (state : LIFState.t F),
    t + k = T ->
    typed_state [b; h] dev dty state ->
    exists outs final,
      steps_by_hand input t k state cell = (Ok (outs, final), cell) /\
      length outs = k /\
      Forall (typed_layout [b; h] dev dty) outs /\
      typed_state [b; h] dev dty final.
Proof.
  intros Hwi Hwr [[Hxs Hxd] Hxt]. unfold has_dtype in Hxt.
  induction k as [| k IH]; intros t state Ht Hs.
  - exists [], state. simpl. unfold ret. auto.
  - destruct (select0_typed input T [b; n] t Hxs) as (x & Hsel & Hx);
      [lia |].
    rewrite Hxd, Hxt in Hx.
    destruct (lif_step_typed b n h dev dty x _ _ state (LIFCell.p cell)
                (LIFCell.dt cell) Hx Hwi Hwr Hs)
      as (out & next & Hstep & _ & Hout & Hnext).
    destruct (IH (S t) next) as (outs & final & Hsteps & Hlen & Hall & Hfin);
      [lia | assumption |].
    assert (Hcall : call x state cell = (Ok (out, next), cell)).
    { change (LIFCell.forward x state cell = (Ok (out, next), cell)).
      now rewrite LIFCell_forward_eq, Hstep. }
    exists (out :: outs), final.
    cbn [steps_by_hand]. unfold bind, engine, ret.
    rewrite Hsel, Hcall, Hsteps.
    split; [reflexivity |]. split; [simpl; now rewrite Hlen |].
    split; [now constructor | assumption].
Qed.

(** X10.  A layer over a recurrent cell returns on every sequence that
    fits the cell: for weights of shapes [h, n] and [h, h], an input of
    shape [T, b, n] with [T >= 1] and a state of shape [b, h], all of one
    dtype and on one device, it returns spikes of shape [T, b, h] and a
    final state of shape [b, h], of that dtype and on that device, and
    leaves the cell unchanged. *)
Theorem LIFLayer_over_LIFCell_returns (cell : LIFCell.t F)
  (T b n h : nat) (dev : torch_device) (dty : dtype) (input : tensor F)
  (state : LIFState.t F) :
  1 <= T ->
  typed_layout [h; n] dev dty
    (NNParameter.data (LIFCell.input_weights cell)) ->
  typed_layout [h; h] dev dty
    (NNParameter.data (LIFCell.recurrent_weights cell)) ->
  typed_layout [T; b; n] dev dty input ->
  typed_state [b; h] dev dty state ->
  exists stacked final,
    LIFLayer.forward input state (LIFLayer.mk cell)
    = (Ok (stacked, final), LIFLayer.mk cell) /\
    typed_layout [T; b; h] dev dty stacked /\
    typed_state [b; h] dev dty final.
Proof.
  intros HT Hwi Hwr Hx Hs.
  destruct (steps_over_LIFCell cell T b n h dev dty input Hwi Hwr Hx
              T 0 state eq_refl Hs)
    as (outs & final & Hsteps & Hlen & Hall & Hfin).
  destruct (stack_typed [b; h] dev dty outs) as (o & Hstack & Ho);
    [destruct outs; [simpl in Hlen; lia | discriminate] | assumption |].
  exists o, final.
  destruct Hx as [[Hxs _] _].
  rewrite (LIFLayer_forward_run (LIFLayer.mk cell) input state T [b; n] Hxs).
  simpl LIFLayer.cell. rewrite Hsteps, Hstack. simpl.
  split; [reflexivity |]. split; [now rewrite <- Hlen | assumption].
Qed.

Context {RF : RootScalar F}.

(** The weights of a constructed cell: their shapes, on the CPU, with
    the default dtype. *)
Lemma LIFCell_init_typed (input_size hidden_size : nat)
  (p : LIFParameters.t F) (dt : F) (g : Generator.t F) :
  let cell := fst (LIFCell.__init__ input_size hidden_size p dt g) in
  typed_layout [hidden_size; input_size] "cpu"%string torch_float
    (NNParameter.data (LIFCell.input_weights cell)) /\
  typed_layout [hidden_size; hidden_size] "cpu"%string torch_float
    (NNParameter.data (LIFCell.recurrent_weights cell)) /\
  LIFCell.hidden_size cell = hidden_size.
Proof.
  cbv zeta. unfold LIFCell.__init__.
  destruct (Generator.randn [hidden_size; input_size] g) as [w1 g1] eqn:E1.
  destruct (Generator.randn [hidden_size; hidden_size] g1) as [w2 g2] eqn:E2.
  unfold Generator.randn in E1, E2.
  injection E1 as <- <-. injection E2 as <- <-.
  simpl. repeat split.
Qed.

Lemma initial_state_typed (cell : LIFCell.t F) (batch_size : nat)
  (dev : torch_device) (dty : dtype) :
  exists s0,
    LIFCell.initial_state batch_size dev dty cell = (Ok s0, cell) /\
    typed_state [batch_size; LIFCell.hidden_size cell] dev dty s0.
Proof.
  eexists. split; [reflexivity |]. repeat split.
Qed.

(** X12.  Constructor, initial state and forward fit together: a cell
    built for [input_size] and [hidden_size] takes its own initial state
    for a batch, made on the CPU with the default dtype [torch.float] as
    its weights are, and an input of shape [batch, input_size] of that
    dtype there, to spikes and a next state of shape
    [batch, hidden_size]. *)
Theorem LIFCell_constructed_accepts_initial_state
  (input_size hidden_size batch_size : nat) (p : LIFParameters.t F) (dt : F)
  (g : Generator.t F) (input : tensor F) :
  typed_layout [batch_size; input_size] "cpu"%string torch_float input ->
  let cell := fst (LIFCell.__init__ input_size hidden_size p dt g) in
  exists s0 out next,
    LIFCell.initial_state batch_size "cpu"%string torch_float cell
    = (Ok s0, cell) /\
    LIFCell.forward input s0 cell = (Ok (out, next), cell) /\
    typed_layout [batch_size; hidden_size] "cpu"%string torch_float out /\
    typed_state [batch_size; hidden_size] "cpu"%string torch_float next.
Proof.
  intros Hx cell.
  destruct (LIFCell_init_typed input_size hidden_size p dt g)
    as (Hwi & Hwr & Hh).
  fold cell in Hwi, Hwr, Hh.
  destruct (initial_state_typed cell batch_size "cpu"%string torch_float)
    as (s0 & Hinit & Hs0).
  rewrite Hh in Hs0.
  destruct (lif_step_typed batch_size input_size hidden_size "cpu"%string
              torch_float input _ _ s0 (LIFCell.p cell) (LIFCell.dt cell)
              Hx Hwi Hwr Hs0)
    as (out & next & Hstep & _ & Hout & Hnext).
  exists s0, out, next. split; [exact Hinit |].
  rewrite LIFCell_forward_eq, Hstep. auto.
Qed.

(** X13.  A layer constructed over [LIFCell] for [input_size] and
    [hidden_size] runs, from the initial state of its cell for a batch on
    the CPU with the default dtype, over every CPU sequence of shape
    [T, batch, input_size] of that dtype with [T >= 1], and returns
    spikes of shape [T, batch, hidden_size]. *)
Theorem LIFLayer_constructed_returns (input_size hidden_size batch_size : nat)
  (T : nat) (p : LIFParameters.t F) (dt : F) (g : Generator.t F)
  (input : tensor F) :
  1 <= T ->
  typed_layout [T; batch_size; input_size] "cpu"%string torch_float input ->
  let layer :=
    fst (LIFLayer.__init__ (LIFCell.__init__ input_size hidden_size p dt) g) in
  exists s0 stacked final,
    LIFCell.initial_state batch_size "cpu"%string torch_float
      (LIFLayer.cell layer)
    = (Ok s0, LIFLayer.cell layer) /\
    LIFLayer.forward input s0 layer = (Ok (stacked, final), layer) /\
    typed_layout [T; batch_size; hidden_size] "cpu"%string torch_float
      stacked /\
    typed_state [batch_size; hidden_size] "cpu"%string torch_float final.
Proof.
  intros HT Hx layer.
  assert (Hlayer :
    layer = LIFLayer.mk
              (fst (LIFCell.__init__ input_size hidden_size p dt g))).
  { subst layer. unfold LIFLayer.__init__.
    now destruct (LIFCell.__init__ input_size hidden_size p dt g). }
  destruct (LIFCell_init_typed input_size hidden_size p dt g)
    as (Hwi & Hwr & Hh).
  set (cell := fst (LIFCell.__init__ input_size hidden_size p dt g)) in *.
  rewrite Hlayer. simpl LIFLayer.cell.
  destruct (initial_state_typed cell batch_size "cpu"%string torch_float)
    as (s0 & Hinit & Hs0).
  rewrite Hh in Hs0.
  destruct (steps_over_LIFCell cell T batch_size input_size hidden_size
              "cpu"%string torch_float input Hwi Hwr Hx T 0 s0 eq_refl Hs0)
    as (outs & final & Hsteps & Hlen & Hall & Hfin).
  destruct (stack_typed [batch_size; hidden_size] "cpu"%string torch_float
              outs) as (o & Hstack & Ho);
    [destruct outs; [simpl in Hlen; lia | discriminate] | assumption |].
  exists s0, o, final. split; [exact Hinit |].
  destruct Hx as [[Hxs _] _].
  rewrite (LIFLayer_forward_run (LIFLayer.mk cell) input s0 T
             [batch_size; input_size] Hxs).
  simpl LIFLayer.cell. rewrite Hsteps, Hstack. simpl.
  split; [reflexivity |]. split; [now rewrite <- Hlen | assumption].
Qed.

End Typed.

(* ================================================================== *)
(** ** The properties above on the sample objects *)

Lemma LIFLayer_forward_returned_witness :
  exists (stacked : tensor Qc) (final : LIFState.t Qc)
         (outs : list (tensor Qc)),
    LIFLayer.forward sample_sequence sample_state (LIFLayer.mk sample_cell)
    = (Ok (stacked, final), LIFLayer.mk sample_cell) /\
    steps_by_hand sample_sequence 0 2 sample_state sample_cell
    = (Ok (outs, final), sample_cell) /\
    length outs = 2 /\ 1 <= 2 /\
    forall (t : nat) (out : tensor Qc),
      nth_error outs t = Some out ->
      t_shape stacked = 2 :: t_shape out /\
      t_device stacked = t_device out /\
      (Forall wf outs ->
       select0 stacked t
       = Ok (mkTensor (t_shape out) (t_device stacked) (t_dtype stacked)
               (t_data out))).
Proof.
  destruct (LIFLayer.forward sample_sequence sample_state
              (LIFLayer.mk sample_cell))
    as [[[stacked final] | e] self'] eqn:E;
    [| vm_compute in E; discriminate E].
  assert (Hself : self' = LIFLayer.mk sample_cell).
  { change self' with (snd (Ok (stacked, final), self')). rewrite <- E.
    apply LIFLayer_forward_preserves. intros.
    apply LIFCell_forward_preserves. }
  subst self'.
  destruct (LIFLayer_forward_returned (LIFLayer.mk sample_cell)
              (LIFLayer.mk sample_cell) sample_sequence stacked sample_state
              final 2 [1; 3] eq_refl E) as (outs & H).
  exists stacked, final, outs. split; [reflexivity | exact H].
Defined.

Lemma LIFLayer_forward_raises_witness :
  LIFLayer.forward sample_sequence 0 (LIFLayer.mk (BudgetCell.mk 1))
  = (Raise RuntimeError, LIFLayer.mk (BudgetCell.mk 0)).
Proof.
  eapply (LIFLayer_forward_raises (LIFLayer.mk (BudgetCell.mk 1))
            sample_sequence _ 0 _ 2 1 [1; 3]).
  - reflexivity.
  - lia.
  - reflexivity.
  - reflexivity.
  - reflexivity.
Defined.

Lemma LIFLayer_forward_one_step_witness :
  exists x : tensor Qc,
    select0 sample_first_part 0 = Ok x /\
    LIFLayer.forward sample_first_part sample_state (LIFLayer.mk sample_cell)
    = match call x sample_state sample_cell with
      | (Ok (out, final), c) => (Ok (unsqueeze0 out, final), LIFLayer.mk c)
      | (Raise e, c) => (Raise e, LIFLayer.mk c)
      end.
Proof.
  apply (LIFLayer_forward_one_step (LIFLayer.mk sample_cell)
           sample_first_part sample_state [1; 3]).
  reflexivity.
Defined.

Lemma LIFLayer_forward_in_two_parts_witness :
  exists (o1 o2 stacked : tensor Qc) (s1 s2 : LIFState.t Qc),
    cat0 sample_first_part sample_second_part = Ok sample_sequence /\
    LIFLayer.forward sample_first_part sample_state (LIFLayer.mk sample_cell)
    = (Ok (o1, s1), LIFLayer.mk sample_cell) /\
    LIFLayer.forward sample_second_part s1 (LIFLayer.mk sample_cell)
    = (Ok (o2, s2), LIFLayer.mk sample_cell) /\
    cat0 o1 o2 = Ok stacked /\
    LIFLayer.forward sample_sequence sample_state (LIFLayer.mk sample_cell)
    = (Ok (stacked, s2), LIFLayer.mk sample_cell).
Proof.
  destruct (LIFLayer.forward sample_first_part sample_state
              (LIFLayer.mk sample_cell))
    as [[[o1 s1] | e] self1] eqn:E1;
    [| vm_compute in E1; discriminate E1].
  assert (Hself1 : self1 = LIFLayer.mk sample_cell).
  { change self1 with (snd (Ok (o1, s1), self1)). rewrite <- E1.
    apply LIFLayer_forward_preserves. intros.
    apply LIFCell_forward_preserves. }
  subst self1.
  destruct (LIFLayer.forward sample_second_part s1 (LIFLayer.mk sample_cell))
    as [[[o2 s2] | e] self2] eqn:E2.
  2: { pose proof E1 as E1'. vm_compute in E1'. injection E1' as <- <-.
       vm_compute in E2. discriminate E2. }
  assert (Hself2 : self2 = LIFLayer.mk sample_cell).
  { change self2 with (snd (Ok (o2, s2), self2)). rewrite <- E2.
    apply LIFLayer_forward_preserves. intros.
    apply LIFCell_forward_preserves. }
  subst self2.
  destruct (cat0 o1 o2) as [stacked | e] eqn:Ec.
  2: { pose proof E1 as E1'. vm_compute in E1'. injection E1' as <- <-.
       pose proof E2 as E2'. vm_compute in E2'. injection E2' as <- <-.
       vm_compute in Ec. discriminate Ec. }
  exists o1, o2, stacked, s1, s2.
  split; [reflexivity |].
  do 3 (split; [first [assumption | reflexivity] |]).
  apply (LIFLayer_forward_in_two_parts (LIFLayer.mk sample_cell)
           (LIFLayer.mk sample_cell) (LIFLayer.mk sample_cell)
           sample_first_part sample_second_part sample_sequence o1 o2 stacked
           sample_state s1 s2 1 [1; 3]).
  - reflexivity.
  - reflexivity.
  - reflexivity.
  - reflexivity.
  - exact E1.
  - exact E2.
  - exact Ec.
Defined.

Lemma LIFConstantCurrentEncoder_forward_layout_witness :
  exists voltages spikes : tensor Qc,
    LIFConstantCurrentEncoder.forward sample_matrix sample_encoder
    = (Ok (voltages, spikes), sample_encoder) /\
    t_device voltages = cpu /\
    t_device spikes = cpu /\
    t_dtype voltages = torch_float /\
    t_dtype spikes = torch_float /\
    wf voltages /\ wf spikes /\
    length (t_data voltages) = 3 * 4 /\
    length (t_data spikes) = 3 * 4.
Proof.
  apply (LIFConstantCurrentEncoder_forward_layout sample_encoder
           sample_matrix).
  - simpl. lia.
  - reflexivity.
  - reflexivity.
Defined.

Lemma LIFConstantCurrentEncoder_forward_prefix_witness :
  exists voltages spikes voltages' spikes' : tensor Qc,
    LIFConstantCurrentEncoder.forward sample_matrix sample_short_encoder
    = (Ok (voltages, spikes), sample_short_encoder) /\
    LIFConstantCurrentEncoder.forward sample_matrix sample_encoder
    = (Ok (voltages', spikes'), sample_encoder) /\
    forall t, t < 2 ->
      (exists row, select0 voltages t = Ok row /\ select0 voltages' t = Ok row)
      /\
      (exists row, select0 spikes t = Ok row /\ select0 spikes' t = Ok row).
Proof.
  apply (LIFConstantCurrentEncoder_forward_prefix sample_short_encoder
           sample_encoder sample_matrix).
  - reflexivity.
  - reflexivity.
  - reflexivity.
  - simpl. lia.
  - simpl. lia.
  - reflexivity.
  - reflexivity.
Defined.


(** The two traces in binary64, for the inputs 2000 and [+inf] over two
    steps: the first neuron spikes in both steps and is reset to
    [v_reset = 0]; the second spikes in the first step with an infinite
    potential, which the reset turns into not-a-number, and a potential
    that is not a number passes no threshold afterwards. *)
Example LIFConstantCurrentEncoder_forward_overflow :
  match fst (LIFConstantCurrentEncoder.forward FloatSamples.matrix
               FloatSamples.encoder) with
  | Ok (voltages, spikes) => (t_data voltages, t_data spikes)
  | Raise _ => ([], [])
  end
  = ([PrimFloat.zero; PrimFloat.nan; PrimFloat.zero; PrimFloat.nan],
     [PrimFloat.one; PrimFloat.one; PrimFloat.one; PrimFloat.zero]).
Proof. vm_compute. reflexivity. Qed.

Lemma LIFCell_forward_layout_witness :
  exists (out : tensor Qc) (next : LIFState.t Qc),
    LIFCell.forward sample_input sample_state sample_cell
    = (Ok (out, next), sample_cell) /\
    out = LIFState.z next /\
    typed_layout [1; 2] cpu float32 out /\
    typed_state [1; 2] cpu float32 next.
Proof.
  apply (LIFCell_forward_layout sample_cell 1 3 2 cpu float32 sample_input
           sample_state).
  - repeat split.
  - repeat split.
  - repeat split.
  - repeat split.
Defined.

Lemma LIFFeedForwardCell_forward_layout_witness :
  exists (out : tensor Qc) (next : LIFFeedForwardState.t Qc),
    LIFFeedForwardCell.forward sample_input sample_ff_state sample_ff_cell
    = (Ok (out, next), sample_ff_cell) /\
    has_layout [1; 3] cpu out /\
    ff_state_layout [1; 3] cpu next.
Proof.
  apply (LIFFeedForwardCell_forward_layout sample_ff_cell [1; 3] cpu
           sample_input sample_ff_state).
  - split; reflexivity.
  - repeat split.
Defined.

Lemma LIFLayer_over_LIFCell_returns_witness :
  exists (stacked : tensor Qc) (final : LIFState.t Qc),
    LIFLayer.forward sample_sequence sample_state (LIFLayer.mk sample_cell)
    = (Ok (stacked, final), LIFLayer.mk sample_cell) /\
    typed_layout [2; 1; 2] cpu float32 stacked /\
    typed_state [1; 2] cpu float32 final.
Proof.
  apply (LIFLayer_over_LIFCell_returns sample_cell 2 1 3 2 cpu float32
           sample_sequence sample_state).
  - lia.
  - repeat split.
  - repeat split.
  - repeat split.
  - repeat split.
Defined.

Lemma LIFLayer_over_LIFFeedForwardCell_returns_witness :
  exists (stacked : tensor Qc) (final : LIFFeedForwardState.t Qc),
    LIFLayer.forward sample_sequence sample_ff_state
      (LIFLayer.mk sample_ff_cell)
    = (Ok (stacked, final), LIFLayer.mk sample_ff_cell) /\
    has_layout [2; 1; 3] cpu stacked /\
    ff_state_layout [1; 3] cpu final.
Proof.
  apply (LIFLayer_over_LIFFeedForwardCell_returns sample_ff_cell 2 [1; 3] cpu
           sample_sequence sample_ff_state).
  - lia.
  - split; reflexivity.
  - repeat split.
Defined.

Lemma LIFCell_constructed_accepts_initial_state_witness :
  let cell := fst (LIFCell.__init__ 3 2 real_parameters 0.001%R
                     real_generator) in
  exists (s0 : LIFState.t R) (out : tensor R) (next : LIFState.t R),
    LIFCell.initial_state 2 "cpu"%string torch_float cell = (Ok s0, cell) /\
    LIFCell.forward real_input s0 cell = (Ok (out, next), cell) /\
    typed_layout [2; 2] "cpu"%string torch_float out /\
    typed_state [2; 2] "cpu"%string torch_float next.
Proof.
  apply (LIFCell_constructed_accepts_initial_state 3 2 2 real_parameters
           0.001%R real_generator real_input).
  repeat split.
Defined.

Lemma LIFLayer_constructed_returns_witness :
  let layer :=
    fst (LIFLayer.__init__ (LIFCell.__init__ 3 2 real_parameters 0.001%R)
           real_generator) in
  exists (s0 : LIFState.t R) (stacked : tensor R) (final : LIFState.t R),
    LIFCell.initial_state 2 "cpu"%string torch_float (LIFLayer.cell layer)
    = (Ok s0, LIFLayer.cell layer) /\
    LIFLayer.forward real_sequence s0 layer = (Ok (stacked, final), layer) /\
    typed_layout [1; 2; 2] "cpu"%string torch_float stacked /\
    typed_state [2; 2] "cpu"%string torch_float final.
Proof.
  apply (LIFLayer_constructed_returns 3 2 2 1 real_parameters 0.001%R
           real_generator real_sequence).
  - lia.
  - repeat split.
Defined.
